(** * glbmeet: the walking figure and the floor detector

    A shallow embedding of two pieces of the indoor-navigation viewer:

    - [WalkingObject] (the class of [utils/WalkingObject.js]): the per-frame
      state machine that moves a figure along a list of waypoints;
    - [detectFloorLevels] (in [hooks/useModelLoader.js]): the routine that
      groups bounding-box elevations into floor levels.

    Around them: the hook [useWalkingObject] that drives the walker and the
    camera from the animation loop, [buildHierarchy] (the rows of the model
    panel), the distance and the instructions of the navigation panel, and
    the key handlers of [useThreeScene].

    JavaScript numbers are IEEE-754 binary64 values, so they are modelled by
    Rocq's primitive floats: [+], [-], [*], [/], [sqrt] and the comparisons
    compute exactly what a JavaScript engine computes, including the signed
    zeros, the infinities and NaN. *)

From Stdlib Require Import Floats ZArith List String Bool Lia Uint63.
From Stdlib Require Import DecimalString Permutation.
Import ListNotations.

Set Warnings "-inexact-float".

(* ================================================================== *)
(** ** JavaScript numbers and the built-ins the code calls *)

Module JS.

Definition number := float.

(** An array length, or any other small natural number, as a number. *)
Definition of_nat (n : nat) : number :=
  PrimFloat.of_uint63 (Uint63.of_Z (Z.of_nat n)).

(** An integer as a number (exact below 2^53). *)
Definition of_Z (n : Z) : number :=
  if (n <? 0)%Z
  then (- PrimFloat.of_uint63 (Uint63.of_Z (- n)))%float
  else PrimFloat.of_uint63 (Uint63.of_Z n).

(** [Math.round]: the integer closest to [v], ties towards +infinity;
    zeros, infinities, NaN and integral values are returned unchanged, and
    a value in [-0.5, -0] rounds to the negative zero. *)
Definition Math_round (v : number) : number :=
  match Prim2SF v with
  | S754_finite s m e =>
      if (0 <=? e)%Z then v
      else
        let k := (- e)%Z in
        let num := if s then Z.neg m else Z.pos m in
        let n := ((2 * num + 2 ^ k) / 2 ^ (k + 1))%Z in
        if (n =? 0)%Z then (if s then neg_zero else zero) else of_Z n
  | _ => v
  end.

(** [Math.max(a, b)]: NaN if either argument is NaN. *)
Definition Math_max (a b : number) : number :=
  if is_nan a || is_nan b then nan
  else if (a <? b)%float then b else a.

(** [v || d] on numbers: [d] replaces the falsy numbers, the zeros and NaN. *)
Definition or_default (v d : number) : number :=
  if (v =? 0)%float || is_nan v then d else v.

(** The implementation-approximated functions of ECMAScript's [Math] that
    the walker calls.  The standard does not fix their results bit for bit,
    so the model takes them from the engine. *)
Record Math : Type := {
  sin : number -> number;
  atan2 : number -> number -> number
}.

(** *** [Set] of numbers, in insertion order *)

(** The key comparison of [Set]: NaN equals NaN, and the two zeros are one
    key. *)
Definition sameValueZero (a b : number) : bool :=
  (a =? b)%float || (is_nan a && is_nan b).

Definition Set_add (s : list number) (v : number) : list number :=
  if existsb (sameValueZero v) s then s
  else s ++ [if (v =? 0)%float then zero else v].

(** *** [Array.prototype.sort((a, b) => a - b)]

    A stable insertion sort driven by the sign of [a - b].  On numbers
    without NaN the comparator is consistent and every conforming sort
    returns this same array. *)
Fixpoint sort_insert (v : number) (sorted : list number) : list number :=
  match sorted with
  | [] => [v]
  | h :: rest =>
      if (v - h <? 0)%float then v :: h :: rest
      else h :: sort_insert v rest
  end.

Definition sort_ascending (a : list number) : list number :=
  fold_left (fun sorted v => sort_insert v sorted) a [].

(** [a.reduce((x, y) => x + y)] on a non-empty array. *)
Definition reduce_add (a : list number) : option number :=
  match a with
  | [] => None
  | h :: rest => Some (fold_left (fun x y => (x + y)%float) rest h)
  end.

End JS.

(* ================================================================== *)
(** ** The part of three.js the code uses *)

Module THREE.

Import JS.
Local Open Scope float_scope.

Record Vector3 : Type := mkVector3 { x : number; y : number; z : number }.

Definition subVectors (a b : Vector3) : Vector3 :=
  mkVector3 (x a - x b) (y a - y b) (z a - z b).

Definition length (v : Vector3) : number :=
  PrimFloat.sqrt (x v * x v + y v * y v + z v * z v).

Definition multiplyScalar (v : Vector3) (s : number) : Vector3 :=
  mkVector3 (x v * s) (y v * s) (z v * s).

Definition divideScalar (v : Vector3) (s : number) : Vector3 :=
  multiplyScalar v (1 / s).

(** [normalize] divides by [this.length() || 1], so the zero vector stays
    the zero vector. *)
Definition normalize (v : Vector3) : Vector3 :=
  divideScalar v (or_default (length v) 1).

Definition distanceToSquared (a b : Vector3) : number :=
  let dx := x a - x b in
  let dy := y a - y b in
  let dz := z a - z b in
  dx * dx + dy * dy + dz * dz.

Definition distanceTo (a b : Vector3) : number :=
  PrimFloat.sqrt (distanceToSquared a b).

Definition lerpVectors (v1 v2 : Vector3) (alpha : number) : Vector3 :=
  mkVector3 (x v1 + (x v2 - x v1) * alpha)
            (y v1 + (y v2 - y v1) * alpha)
            (z v1 + (z v2 - z v1) * alpha).

(** An axis-aligned box; [Box3().setFromObject(obj)] is three.js's work and
    its result is taken as given. *)
Record Box3 : Type := mkBox3 { min : Vector3; max : Vector3 }.

End THREE.

(* ================================================================== *)
(** ** [detectFloorLevels] *)

Module FloorLevels.

Import JS.
Local Open Scope float_scope.

(** The body of the [forEach]: both elevations of the object's box,
    rounded to one decimal, go into the set. *)
Definition addHeights (heights : list number) (box : THREE.Box3)
  : list number :=
  let minY := THREE.y (THREE.min box) in
  let maxY := THREE.y (THREE.max box) in
  let heights := Set_add heights (Math_round (minY * 10) / 10) in
  Set_add heights (Math_round (maxY * 10) / 10).

(** [currentGroup.reduce((a, b) => a + b) / currentGroup.length] *)
Definition groupMean (currentGroup : list number) : number :=
  match reduce_add currentGroup with
  | Some total => total / of_nat (List.length currentGroup)
  | None => nan
  end.

(** The [for] loop over [sortedHeights[1..]], carrying [currentGroup] and
    [groupedFloors]. *)
Fixpoint groupLoop (rest currentGroup groupedFloors : list number)
  : list number * list number :=
  match rest with
  | [] => (currentGroup, groupedFloors)
  | h :: rest' =>
      if h - last currentGroup nan <? 0.5
      then groupLoop rest' (currentGroup ++ [h]) groupedFloors
      else groupLoop rest' [h] (groupedFloors ++ [groupMean currentGroup])
  end.

(** [selectedObjects] are the boxes of the objects ticked for the grid. *)
Definition detectFloorLevels (selectedObjects : list THREE.Box3)
  : list number :=
  match selectedObjects with
  | [] => []
  | _ =>
      let heights := fold_left addHeights selectedObjects [] in
      let sortedHeights := sort_ascending heights in
      match sortedHeights with
      | [] => []
      | first :: rest =>
          let '(currentGroup, groupedFloors) := groupLoop rest [first] [] in
          match currentGroup with
          | [] => groupedFloors
          | _ => groupedFloors ++ [groupMean currentGroup]
          end
      end
  end.

(** An object whose box spans the elevations [lo .. hi]. *)
Definition slab (lo hi : number) : THREE.Box3 :=
  THREE.mkBox3 (THREE.mkVector3 0 lo 0) (THREE.mkVector3 1 hi 1).

(** [a] is within [eps] of [b]. *)
Definition close_to (eps a b : number) : bool :=
  PrimFloat.abs (a - b) <=? eps.

End FloorLevels.

(* ================================================================== *)
(** ** [WalkingObject] *)

Module Walker.

Import JS.
Local Open Scope float_scope.

(** The [THREE.Group] that is the figure: the fields the class writes. *)
Record Group : Type := mkGroup {
  position : THREE.Vector3;
  rotation_y : number;
  visible : bool
}.

(** The six meshes kept in [this.bodyParts]: the coordinate of each that
    the animation writes ([body.position.y], [leftArm.rotation.x], ...). *)
Record BodyParts : Type := mkBodyParts {
  body_y : number;
  head_y : number;
  leftArm_x : number;
  rightArm_x : number;
  leftLeg_x : number;
  rightLeg_x : number
}.

(** The instance fields.  The two callbacks are opaque to the class:
    [onComplete] and [onProgress] record whether one is installed, and a
    call of a callback shows up as an [event]. *)
Record WalkingObject : Type := mkWalkingObject {
  object : Group;
  bodyParts : BodyParts;
  path : list THREE.Vector3;
  currentPathIndex : nat;
  progress : number;
  isWalking : bool;
  walkSpeed : number;
  rotationSpeed : number;
  onComplete : bool;
  onProgress : bool
}.

(** What a method call lets the outside see besides the fields. *)
Inductive event : Type :=
| Warn (message : string)                  (* console.warn(message) *)
| Progress (currentIndex total : nat)      (* this.onProgress(i, n) *)
| Complete.                                (* this.onComplete() *)

(** A method either returns, with the new fields and the events it
    produced, or throws the [TypeError] of a use of [undefined]. *)
Inductive outcome (A : Type) : Type :=
| Returned (a : A) (w : WalkingObject) (out : list event)
| Thrown.
Arguments Returned {A} a w out.
Arguments Thrown {A}.

Definition method (A : Type) : Type := WalkingObject -> outcome A.

Definition ret {A} (a : A) : method A := fun w => Returned a w [].

Definition bind {A B} (m : method A) (k : A -> method B) : method B :=
  fun w =>
    match m w with
    | Returned a w1 out1 =>
        match k a w1 with
        | Returned b w2 out2 => Returned b w2 (out1 ++ out2)
        | Thrown => Thrown
        end
    | Thrown => Thrown
    end.

Declare Scope method_scope.
Delimit Scope method_scope with method.
Notation "v <- m ;; k" := (bind m (fun v => k))
  (at level 61, m at next level, right associativity) : method_scope.
Notation "m ;; k" := (bind m (fun _ => k))
  (at level 61, right associativity) : method_scope.
Local Open Scope method_scope.

Definition this : method WalkingObject := fun w => Returned w w [].
Definition assign (f : WalkingObject -> WalkingObject) : method unit :=
  fun w => Returned tt (f w) [].
Definition emit (e : event) : method unit := fun w => Returned tt w [e].
Definition when (c : bool) (m : method unit) : method unit :=
  if c then m else ret tt.

(** [this.path[i]], used at once as a vector: an index outside the array
    gives [undefined], and reading a coordinate of it throws. *)
Definition path_at (i : nat) : method THREE.Vector3 :=
  fun w =>
    match nth_error (path w) i with
    | Some p => Returned p w []
    | None => Thrown
    end.

(** *** Field assignments *)

Definition set_position (p : THREE.Vector3) (w : WalkingObject) :=
  mkWalkingObject
    (mkGroup p (rotation_y (object w)) (visible (object w)))
    (bodyParts w) (path w) (currentPathIndex w) (progress w) (isWalking w)
    (walkSpeed w) (rotationSpeed w) (onComplete w) (onProgress w).

Definition set_rotation_y (a : number) (w : WalkingObject) :=
  mkWalkingObject
    (mkGroup (position (object w)) a (visible (object w)))
    (bodyParts w) (path w) (currentPathIndex w) (progress w) (isWalking w)
    (walkSpeed w) (rotationSpeed w) (onComplete w) (onProgress w).

Definition set_visible (v : bool) (w : WalkingObject) :=
  mkWalkingObject
    (mkGroup (position (object w)) (rotation_y (object w)) v)
    (bodyParts w) (path w) (currentPathIndex w) (progress w) (isWalking w)
    (walkSpeed w) (rotationSpeed w) (onComplete w) (onProgress w).

Definition set_bodyParts (b : BodyParts) (w : WalkingObject) :=
  mkWalkingObject (object w) b (path w) (currentPathIndex w) (progress w)
    (isWalking w) (walkSpeed w) (rotationSpeed w) (onComplete w)
    (onProgress w).

Definition set_path (p : list THREE.Vector3) (w : WalkingObject) :=
  mkWalkingObject (object w) (bodyParts w) p (currentPathIndex w)
    (progress w) (isWalking w) (walkSpeed w) (rotationSpeed w)
    (onComplete w) (onProgress w).

Definition set_currentPathIndex (i : nat) (w : WalkingObject) :=
  mkWalkingObject (object w) (bodyParts w) (path w) i (progress w)
    (isWalking w) (walkSpeed w) (rotationSpeed w) (onComplete w)
    (onProgress w).

Definition set_progress (p : number) (w : WalkingObject) :=
  mkWalkingObject (object w) (bodyParts w) (path w) (currentPathIndex w) p
    (isWalking w) (walkSpeed w) (rotationSpeed w) (onComplete w)
    (onProgress w).

Definition set_isWalking (b : bool) (w : WalkingObject) :=
  mkWalkingObject (object w) (bodyParts w) (path w) (currentPathIndex w)
    (progress w) b (walkSpeed w) (rotationSpeed w) (onComplete w)
    (onProgress w).

Definition set_walkSpeed (s : number) (w : WalkingObject) :=
  mkWalkingObject (object w) (bodyParts w) (path w) (currentPathIndex w)
    (progress w) (isWalking w) s (rotationSpeed w) (onComplete w)
    (onProgress w).

Definition set_onComplete (c : bool) (w : WalkingObject) :=
  mkWalkingObject (object w) (bodyParts w) (path w) (currentPathIndex w)
    (progress w) (isWalking w) (walkSpeed w) (rotationSpeed w) c
    (onProgress w).

Definition set_onProgress (c : bool) (w : WalkingObject) :=
  mkWalkingObject (object w) (bodyParts w) (path w) (currentPathIndex w)
    (progress w) (isWalking w) (walkSpeed w) (rotationSpeed w)
    (onComplete w) c.

(** *** The constructor

    [createObject] builds the meshes: body at height 0.3, head at 0.75,
    limbs unrotated about x; the group sits at the origin, unrotated and
    hidden. *)
Definition new : WalkingObject :=
  mkWalkingObject
    (mkGroup (THREE.mkVector3 0 0 0) 0 false)
    (mkBodyParts 0.3 0.75 0 0 0 0)
    [] 0%nat 0 false 2 5 false false.

(** *** Methods

    [Math] is the engine's; [now] is the value [Date.now()] returns during
    the call. *)
Section Methods.

Variable M : Math.

Definition lookAtNextPoint : method unit :=
  w <- this ;;
  if (currentPathIndex w + 1 <? List.length (path w))%nat then
    currentPos <- path_at (currentPathIndex w) ;;
    nextPos <- path_at (currentPathIndex w + 1) ;;
    let direction :=
      THREE.normalize (THREE.subVectors nextPos currentPos) in
    when (0 <? THREE.length direction)
      (let targetRotationY :=
         atan2 M (THREE.x direction) (THREE.z direction) in
       assign (set_rotation_y targetRotationY))
  else ret tt.

Definition animateWalking (now deltaTime : number) : method unit :=
  w <- this ;;
  let time := now * 0.005 in
  let walkCycle := sin M (time * walkSpeed w * deltaTime * 60) in
  assign (set_bodyParts
    (mkBodyParts (0.3 + PrimFloat.abs walkCycle * 0.02)
                 (0.75 + PrimFloat.abs walkCycle * 0.02)
                 (walkCycle * 0.5)
                 (- walkCycle * 0.5)
                 (walkCycle * 0.3)
                 (- walkCycle * 0.3))).

Definition animateIdle (now : number) : method unit :=
  let time := now * 0.001 in
  let idleBob := sin M time * 0.01 in
  assign (set_bodyParts
    (mkBodyParts (0.3 + idleBob) (0.75 + idleBob) 0 0 0 0)).

Definition setPath (worldPath : option (list THREE.Vector3))
  : method unit :=
  match worldPath with
  | None => emit (Warn "Invalid path provided to walking object")
  | Some worldPath =>
      if (List.length worldPath <? 2)%nat
      then emit (Warn "Invalid path provided to walking object")
      else
        assign (set_path worldPath) ;;
        assign (set_currentPathIndex 0) ;;
        assign (set_progress 0) ;;
        assign (set_isWalking false) ;;
        first <- path_at 0 ;;
        assign (set_position first) ;;
        assign (set_visible true) ;;
        w <- this ;;
        when (1 <? List.length (path w))%nat lookAtNextPoint
  end.

Definition startWalking : method unit :=
  w <- this ;;
  if (List.length (path w) <? 2)%nat
  then emit (Warn "Cannot start walking: no valid path set")
  else
    assign (set_isWalking true) ;;
    when ((currentPathIndex w =? 0)%nat && (progress w =? 0))
      (first <- path_at 0 ;;
       assign (set_position first) ;;
       lookAtNextPoint ;;
       when (onProgress w) (emit (Progress 0 (List.length (path w))))).

Definition resumeWalking : method unit :=
  w <- this ;;
  if (List.length (path w) <? 2)%nat
  then emit (Warn "Cannot resume walking: no valid path set")
  else assign (set_isWalking true).

Definition isAtStart : method bool :=
  w <- this ;;
  ret ((currentPathIndex w =? 0)%nat && (progress w =? 0)).

Definition stopWalking : method unit := assign (set_isWalking false).

Definition resetPosition (now : number) : method unit :=
  w <- this ;;
  when (0 <? List.length (path w))%nat
    (assign (set_currentPathIndex 0) ;;
     assign (set_progress 0) ;;
     first <- path_at 0 ;;
     assign (set_position first) ;;
     lookAtNextPoint ;;
     animateIdle now).

Definition hide : method unit :=
  assign (set_visible false) ;; assign (set_isWalking false).

Definition show : method unit := assign (set_visible true).

Definition update (now deltaTime : number) : method unit :=
  w <- this ;;
  if negb (isWalking w) || (List.length (path w) <? 2)%nat
  then animateIdle now
  else if (List.length (path w) - 1 <=? currentPathIndex w)%nat
  then
    assign (set_isWalking false) ;;
    animateIdle now ;;
    when (onComplete w) (emit Complete)
  else
    currentPos <- path_at (currentPathIndex w) ;;
    nextPos <- path_at (currentPathIndex w + 1) ;;
    let segmentLength := THREE.distanceTo currentPos nextPos in
    let moveDistance := walkSpeed w * deltaTime in
    assign (set_progress (progress w + moveDistance / segmentLength)) ;;
    w <- this ;;
    (if 1 <=? progress w
     then
       assign (set_currentPathIndex (currentPathIndex w + 1)) ;;
       assign (set_progress 0) ;;
       w <- this ;;
       when (currentPathIndex w <? List.length (path w) - 1)%nat
         lookAtNextPoint ;;
       when (onProgress w)
         (emit (Progress (currentPathIndex w) (List.length (path w))))
     else
       let newPosition :=
         THREE.lerpVectors currentPos nextPos (progress w) in
       assign (set_position newPosition)) ;;
    animateWalking now deltaTime.

Definition setWalkSpeed (speed : number) : method unit :=
  assign (set_walkSpeed (Math_max 0.1 speed)).

Definition setOnComplete (callback : bool) : method unit :=
  assign (set_onComplete callback).

Definition setOnProgress (callback : bool) : method unit :=
  assign (set_onProgress callback).

End Methods.

End Walker.

(* ================================================================== *)
(** ** Driving the walker *)

Module Driver.

Import JS Walker.
Local Open Scope float_scope.
Local Open Scope method_scope.

(** One call of a public method, as the hook [useWalkingObject] and its
    animation loop make them. *)
Inductive call : Type :=
| SetPath (worldPath : option (list THREE.Vector3))
| StartWalking
| ResumeWalking
| IsAtStart
| StopWalking
| ResetPosition (now : number)
| Hide
| Show
| Update (now deltaTime : number)
| SetWalkSpeed (speed : number)
| SetOnComplete (callback : bool)
| SetOnProgress (callback : bool).

Definition perform (M : Math) (c : call) : method unit :=
  match c with
  | SetPath worldPath => setPath M worldPath
  | StartWalking => startWalking M
  | ResumeWalking => resumeWalking
  | IsAtStart => isAtStart ;; ret tt
  | StopWalking => stopWalking
  | ResetPosition now => resetPosition M now
  | Hide => hide
  | Show => show
  | Update now deltaTime => update M now deltaTime
  | SetWalkSpeed speed => setWalkSpeed speed
  | SetOnComplete callback => setOnComplete callback
  | SetOnProgress callback => setOnProgress callback
  end.

Fixpoint performAll (M : Math) (cs : list call) : method unit :=
  match cs with
  | [] => ret tt
  | c :: rest => perform M c ;; performAll M rest
  end.

(** The states a freshly constructed walker can be brought to. *)
Definition reachable (M : Math) (w : WalkingObject) : Prop :=
  exists cs out, performAll M cs new = Returned tt w out.

(** The calls that leave a traversal alone: everything but [setPath],
    [startWalking], [resumeWalking] and [resetPosition]. *)
Definition within_traversal (c : call) : bool :=
  match c with
  | SetPath _ | StartWalking | ResumeWalking | ResetPosition _ => false
  | _ => true
  end.

(** Nothing but animation frames. *)
Definition only_updates (cs : list call) : bool :=
  forallb (fun c => match c with Update _ _ => true | _ => false end) cs.

(** How many times the completion callback was called. *)
Definition completions (out : list event) : nat :=
  List.length
    (filter (fun e => match e with Complete => true | _ => false end) out).

(** The specification's three motion states, read off the fields: the
    class itself keeps the single flag [isWalking], and a walk is over when
    the flag is down with the index on the last waypoint. *)
Inductive MotionState : Type := Idle | Walking | Completed.

Definition motionState (w : WalkingObject) : MotionState :=
  if isWalking w then Walking
  else if (2 <=? List.length (path w))%nat
          && (List.length (path w) - 1 <=? currentPathIndex w)%nat
  then Completed
  else Idle.

(** The pose [animateIdle] and [animateWalking] write. *)
Definition idlePose (M : Math) (now : number) : BodyParts :=
  let idleBob := sin M (now * 0.001) * 0.01 in
  mkBodyParts (0.3 + idleBob) (0.75 + idleBob) 0 0 0 0.

Definition walkCycle (M : Math) (now speed deltaTime : number) : number :=
  sin M (now * 0.005 * speed * deltaTime * 60).

Definition walkingPose (M : Math) (now speed deltaTime : number)
  : BodyParts :=
  let c := walkCycle M now speed deltaTime in
  mkBodyParts (0.3 + PrimFloat.abs c * 0.02) (0.75 + PrimFloat.abs c * 0.02)
              (c * 0.5) (- c * 0.5) (c * 0.3) (- c * 0.3).

(** [update] animates the walk, rather than the idle pose, exactly when it
    finds the walker walking on a segment that is not past the end. *)
Definition advancing (w : WalkingObject) : bool :=
  isWalking w && (2 <=? List.length (path w))%nat
  && (currentPathIndex w + 1 <? List.length (path w))%nat.

(** [n] animation frames of [deltaTime] seconds each, the first at clock
    reading [now] (milliseconds). *)
Fixpoint frames (n : nat) (now deltaTime : number) : list call :=
  match n with
  | O => []
  | S k => Update now deltaTime :: frames k (now + deltaTime * 1000) deltaTime
  end.

(** What [setPath] turns down: no array at all, or fewer than two points. *)
Definition too_short (worldPath : option (list THREE.Vector3)) : Prop :=
  match worldPath with
  | None => True
  | Some l => (List.length l < 2)%nat
  end.

(** The shape of the fields in every state a walker gets into: no path at
    all or at least two waypoints, and the index on one of them. *)
Definition well_formed (w : WalkingObject) : Prop :=
  List.length (path w) <> 1%nat
  /\ (currentPathIndex w <= List.length (path w) - 1)%nat.

(** The point of the current segment at [progress], when the walker is on a
    segment. *)
Definition interpolated (w : WalkingObject) : option THREE.Vector3 :=
  match nth_error (path w) (currentPathIndex w),
        nth_error (path w) (currentPathIndex w + 1) with
  | Some currentPos, Some nextPos =>
      Some (THREE.lerpVectors currentPos nextPos (progress w))
  | _, _ => None
  end.

(** The yaw [lookAtNextPoint] turns the figure to, for a step from
    [currentPos] to [nextPos]; [None] when it leaves the yaw alone. *)
Definition yawToward (M : Math) (currentPos nextPos : THREE.Vector3)
  : option number :=
  let direction := THREE.normalize (THREE.subVectors nextPos currentPos) in
  if 0 <? THREE.length direction
  then Some (atan2 M (THREE.x direction) (THREE.z direction))
  else None.

(** The walker after [lookAtNextPoint]: turned to the next waypoint when
    there is one and the step to it has a direction. *)
Definition turned (M : Math) (w : WalkingObject) : WalkingObject :=
  match nth_error (path w) (currentPathIndex w),
        nth_error (path w) (currentPathIndex w + 1) with
  | Some currentPos, Some nextPos =>
      match yawToward M currentPos nextPos with
      | Some a => set_rotation_y a w
      | None => w
      end
  | _, _ => w
  end.

(** The value [this.progress += moveDistance / segmentLength] leaves in
    [progress], on the segment the walker is on. *)
Definition raisedProgress (w : WalkingObject) (deltaTime : number)
  : number :=
  match nth_error (path w) (currentPathIndex w),
        nth_error (path w) (currentPathIndex w + 1) with
  | Some currentPos, Some nextPos =>
      progress w
      + walkSpeed w * deltaTime / THREE.distanceTo currentPos nextPos
  | _, _ => nan
  end.

(** The four ways a frame goes: [frame M now deltaTime w w' out] says that
    [update(deltaTime)], called at clock reading [now] on the fields [w],
    leaves the fields [w'] and produces the events [out].  The yaw after a
    crossing is whatever [lookAtNextPoint] made it. *)
Inductive frame (M : Math) (now deltaTime : number) (w : WalkingObject)
  : WalkingObject -> list event -> Prop :=
| frame_at_rest :
    isWalking w = false \/ (List.length (path w) < 2)%nat ->
    frame M now deltaTime w (set_bodyParts (idlePose M now) w) []
| frame_ends_walk :
    isWalking w = true ->
    (2 <= List.length (path w))%nat ->
    (List.length (path w) - 1 <= currentPathIndex w)%nat ->
    frame M now deltaTime w
      (set_bodyParts (idlePose M now) (set_isWalking false w))
      (if onComplete w then [Complete] else [])
| frame_crosses (a : number) :
    isWalking w = true ->
    (currentPathIndex w + 1 < List.length (path w))%nat ->
    (1 <=? raisedProgress w deltaTime) = true ->
    frame M now deltaTime w
      (set_bodyParts (walkingPose M now (walkSpeed w) deltaTime)
         (set_rotation_y a
            (set_progress 0
               (set_currentPathIndex (currentPathIndex w + 1) w))))
      (if onProgress w
       then [Progress (currentPathIndex w + 1) (List.length (path w))]
       else [])
| frame_within (currentPos nextPos : THREE.Vector3) :
    isWalking w = true ->
    nth_error (path w) (currentPathIndex w) = Some currentPos ->
    nth_error (path w) (currentPathIndex w + 1) = Some nextPos ->
    (1 <=? raisedProgress w deltaTime) = false ->
    frame M now deltaTime w
      (set_bodyParts (walkingPose M now (walkSpeed w) deltaTime)
         (set_position
            (THREE.lerpVectors currentPos nextPos
               (raisedProgress w deltaTime))
            (set_progress (raisedProgress w deltaTime) w)))
      [].

(** *** Values for the closed examples *)

Definition pt (a b c : number) : THREE.Vector3 := THREE.mkVector3 a b c.

(** The scenario of the specification: a straight ten-unit path. *)
Definition straight : list THREE.Vector3 := [pt 0 0 0; pt 10 0 0].

(** A path with a corner. *)
Definition corner : list THREE.Vector3 := [pt 0 0 0; pt 10 0 0; pt 10 0 10].

(** A path whose first segment has no length. *)
Definition stutter : list THREE.Vector3 := [pt 0 0 0; pt 0 0 0; pt 1 0 0].

(** A path that goes straight up. *)
Definition lift : list THREE.Vector3 := [pt 0 0 0; pt 0 3 0].

(** A closed example has to run on some engine.  This one is a coarse
    stand-in: the first two terms of the sine series, and the slope in place
    of the angle.  The index, the progress, the position and the events of
    a run do not depend on the engine at all. *)
Definition coarse : Math :=
  {| sin := fun a => a - a * a * a / 6;
     atan2 := fun b a => b / (PrimFloat.abs a + PrimFloat.abs b) |}.

(** The fields after the calls [cs] on a new walker. *)
Definition after (M : Math) (cs : list call) : WalkingObject :=
  match performAll M cs new with
  | Returned _ w _ => w
  | Thrown => new
  end.

(** The clock reading the examples start at. *)
Definition clock : number := 1700000000000.

(** A walker on [p], started, with both callbacks installed. *)
Definition started (p : list THREE.Vector3) : list call :=
  [SetOnComplete true; SetOnProgress true; SetPath (Some p); StartWalking].

(** A walker two frames into [corner], on the coarse engine. *)
Definition strolling : WalkingObject :=
  after coarse (started corner ++ frames 2 clock 1).

(** A walker started on [stutter], on the coarse engine. *)
Definition stuttering : WalkingObject := after coarse (started stutter).

(** A walker on [straight] after the frame that crosses the last
    boundary, and after one more frame. *)
Definition arriving : WalkingObject :=
  after coarse (started straight ++ frames 5 clock 1).

Definition arrived : WalkingObject :=
  after coarse (started straight ++ frames 6 clock 1).

(** Two objects with the elevations of the specification's example: a
    floor slab at 0 .. 0.05 and one at 3 .. 3.02. *)
Definition two_slabs : list THREE.Box3 :=
  [FloorLevels.slab 0.0 0.05; FloorLevels.slab 3.0 3.02].

End Driver.

(* ================================================================== *)
(** ** The hook [useWalkingObject] *)

Module Hook.

Import JS Walker.
Local Open Scope float_scope.

(** [Math.min(a, b)]: NaN if either argument is NaN, and the negative zero
    is below the positive one. *)
Definition Math_min (a b : number) : number :=
  if is_nan a || is_nan b then nan
  else if a <? b then a
  else if b <? a then b
  else if get_sign a then a else b.

(** [Vector3.add] and [Vector3.lerp]. *)
Definition add (a v : THREE.Vector3) : THREE.Vector3 :=
  THREE.mkVector3 (THREE.x a + THREE.x v) (THREE.y a + THREE.y v)
    (THREE.z a + THREE.z v).

Definition lerp (a v : THREE.Vector3) (alpha : number) : THREE.Vector3 :=
  THREE.mkVector3 (THREE.x a + (THREE.x v - THREE.x a) * alpha)
                  (THREE.y a + (THREE.y v - THREE.y a) * alpha)
                  (THREE.z a + (THREE.z v - THREE.z a) * alpha).

(** [v.applyMatrix4(new Matrix4().makeRotationY(theta))], with the zeros and
    ones of the matrix multiplied out as three.js multiplies them; [c] and
    [s] are the cosine and the sine of [theta]. *)
Definition applyRotationY (c s : number) (v : THREE.Vector3)
  : THREE.Vector3 :=
  let x := THREE.x v in
  let y := THREE.y v in
  let z := THREE.z v in
  let w := 1 / (0 * x + 0 * y + 0 * z + 1) in
  THREE.mkVector3 ((c * x + 0 * y + s * z + 0) * w)
                  ((0 * x + 1 * y + 0 * z + 0) * w)
                  ((- s * x + 0 * y + c * z + 0) * w).

(** What the hook lets the outside see: the walker's warnings on the
    console, and the messages it passes to [onStatusChange]. *)
Inductive output : Type :=
| ConsoleWarn (message : string)
| StatusChange (message : string).

(** An integer as a template literal prints it. *)
Definition decimal (n : Z) : string := NilZero.string_of_int (Z.to_int n).

(** The two callbacks the hook installs on the walker, and the console. *)
Definition relay (e : event) : output :=
  match e with
  | Warn message => ConsoleWarn message
  | Complete => StatusChange "Walking animation completed!"
  | Progress currentIndex totalSteps =>
      StatusChange
        ("Walking progress: " ++ decimal (Z.of_nat currentIndex) ++ "/"
         ++ decimal (Z.of_nat totalSteps - 1) ++ " steps")
  end.

(** The refs of the hook.  [walkingObject] is [None] until the effect has
    run with a scene. *)
Record State : Type := mkState {
  walkingObject : option WalkingObject;
  lastTime : number;
  cameraFollowEnabled : bool;
  cameraOffset : THREE.Vector3;
  cameraTargetPosition : THREE.Vector3;
  cameraTargetLookAt : THREE.Vector3
}.

Definition set_walkingObject (w : option WalkingObject) (h : State) :=
  mkState w (lastTime h) (cameraFollowEnabled h) (cameraOffset h)
    (cameraTargetPosition h) (cameraTargetLookAt h).

Definition set_lastTime (t : number) (h : State) :=
  mkState (walkingObject h) t (cameraFollowEnabled h) (cameraOffset h)
    (cameraTargetPosition h) (cameraTargetLookAt h).

Definition set_cameraFollowEnabled (b : bool) (h : State) :=
  mkState (walkingObject h) (lastTime h) b (cameraOffset h)
    (cameraTargetPosition h) (cameraTargetLookAt h).

Definition set_cameraTargets (p l : THREE.Vector3) (h : State) :=
  mkState (walkingObject h) (lastTime h) (cameraFollowEnabled h)
    (cameraOffset h) p l.

(** The refs before the effect has run. *)
Definition initial : State :=
  mkState None 0 false (THREE.mkVector3 0 2 (-3))
    (THREE.mkVector3 0 0 0) (THREE.mkVector3 0 0 0).

(** The effect, once there is a scene: a new walker with the two callbacks
    installed; [performanceNow] is the reading of [performance.now()]. *)
Definition mount (performanceNow : number) (h : State) : State :=
  set_lastTime performanceNow
    (set_walkingObject (Some (set_onProgress true (set_onComplete true new)))
       h).

(** A function of the hook returns the refs and what it let out, or lets a
    [TypeError] of the walker through. *)
Definition result : Type := option (State * list output).

(** [if (walkingObjectRef.current) { walkingObjectRef.current.m(); ... }]:
    the call of the walker's method [m], then [afterwards] on the refs and
    the status message. *)
Definition on_walker (m : method unit) (afterwards : State -> State)
  (status : string) (h : State) : result :=
  match walkingObject h with
  | None => Some (h, [])
  | Some w =>
      match m w with
      | Returned _ w' out =>
          Some (afterwards (set_walkingObject (Some w') h),
                map relay out ++ [StatusChange status])
      | Thrown => None
      end
  end.

Section Functions.

Variable M : Math.

Definition setPath (worldPath : option (list THREE.Vector3))
  : State -> result :=
  on_walker (Walker.setPath M worldPath) (fun h => h)
    "Walking path set. Use controls to start animation.".

Definition startWalking : State -> result :=
  on_walker (Walker.startWalking M) (set_cameraFollowEnabled true)
    "Walking animation started! Camera following enabled.".

Definition resumeWalking : State -> result :=
  on_walker Walker.resumeWalking (set_cameraFollowEnabled true)
    "Walking animation resumed! Camera following enabled.".

Definition startOrResumeWalking (h : State) : result :=
  match walkingObject h with
  | None => Some (h, [])
  | Some w =>
      match isAtStart w with
      | Returned true w1 out1 =>
          match Walker.startWalking M w1 with
          | Returned _ w2 out2 =>
              Some (set_cameraFollowEnabled true
                      (set_walkingObject (Some w2) h),
                    map relay (out1 ++ out2)
                    ++ [StatusChange
                          "Walking animation started! Camera following enabled."])
          | Thrown => None
          end
      | Returned false w1 out1 =>
          match Walker.resumeWalking w1 with
          | Returned _ w2 out2 =>
              Some (set_cameraFollowEnabled true
                      (set_walkingObject (Some w2) h),
                    map relay (out1 ++ out2)
                    ++ [StatusChange
                          "Walking animation resumed! Camera following enabled."])
          | Thrown => None
          end
      | Thrown => None
      end
  end.

Definition stopWalking : State -> result :=
  on_walker Walker.stopWalking (set_cameraFollowEnabled false)
    "Walking animation stopped. Camera following disabled.".

Definition resetPosition (now : number) : State -> result :=
  on_walker (Walker.resetPosition M now) (fun h => h)
    "Walker reset to starting position.".

Definition hideWalker : State -> result :=
  on_walker Walker.hide (fun h => h) "Walker hidden.".

Definition showWalker : State -> result :=
  on_walker Walker.show (fun h => h) "Walker shown.".

Definition enableCameraFollow (h : State) : result :=
  Some (set_cameraFollowEnabled true h,
        [StatusChange "Camera following enabled."]).

Definition disableCameraFollow (h : State) : result :=
  Some (set_cameraFollowEnabled false h,
        [StatusChange "Camera following disabled."]).

(** The place the camera is drawn to: the figure's position plus the
    offset turned by the figure's yaw.  [cos] is the engine's cosine. *)
Definition targetCameraPosition (cos : number -> number) (o : Group)
  (offset : THREE.Vector3) : THREE.Vector3 :=
  let objectPosition := position o in
  let objectRotation_y := rotation_y o in
  let cameraOffset :=
    applyRotationY (cos objectRotation_y) (sin M objectRotation_y) offset in
  add objectPosition cameraOffset.

(** The point the camera is turned to: the figure's chest. *)
Definition targetLookAt (o : Group) : THREE.Vector3 :=
  let objectPosition := position o in
  THREE.mkVector3 (THREE.x objectPosition) (THREE.y objectPosition + 0.3)
    (THREE.z objectPosition).

Definition lerpFactor (deltaTime : number) : number :=
  Math_min (deltaTime * 8) 1.

(** The seconds since the frame before, by the browser's timestamps. *)
Definition deltaTime (currentTime : number) (h : State) : number :=
  (currentTime - lastTime h) / 1000.

(** One turn of the animation loop.  [currentTime] is the timestamp the
    browser passes, [now] the reading of [Date.now()] during the walker's
    [update].  [sinks] are [camera.position] and [controls.target] as the
    frame finds them, when there are a camera and controls; the third
    component of the result is what the frame writes to them, if it
    writes.  ([camera.lookAt] and [controls.update()] are three.js's and
    act on the sinks after that.) *)
Definition animate (cos : number -> number) (currentTime now : number)
  (sinks : option (THREE.Vector3 * THREE.Vector3)) (h : State)
  : option (State * list output
            * option (THREE.Vector3 * THREE.Vector3)) :=
  let deltaTime := deltaTime currentTime h in
  let h := set_lastTime currentTime h in
  match walkingObject h with
  | None => Some (h, [], None)
  | Some w =>
      match update M now deltaTime w with
      | Thrown => None
      | Returned _ w' out =>
          let h := set_walkingObject (Some w') h in
          match (if cameraFollowEnabled h then sinks else None) with
          | None => Some (h, map relay out, None)
          | Some (cameraPosition, controlsTarget) =>
              let targetCameraPosition :=
                targetCameraPosition cos (object w') (cameraOffset h) in
              let targetLookAt := targetLookAt (object w') in
              let lerpFactor := lerpFactor deltaTime in
              let h := set_cameraTargets targetCameraPosition targetLookAt h in
              let cameraPosition :=
                lerp cameraPosition targetCameraPosition lerpFactor in
              let currentTarget :=
                lerp controlsTarget targetLookAt lerpFactor in
              Some (h, map relay out, Some (cameraPosition, currentTarget))
          end
      end
  end.

End Functions.

End Hook.

(* ================================================================== *)
(** ** The navigation panel *)

Module Navigation.

Import JS.
Local Open Scope float_scope.

(** A marked location. *)
Record Location : Type := mkLocation {
  id : string;
  name : string;
  description : string;
  coordinates : THREE.Vector3
}.

(** [markedLocations.find(loc => loc.id === locationId)] *)
Definition find_location (markedLocations : list Location)
  (locationId : string) : option Location :=
  find (fun loc => String.eqb (id loc) locationId) markedLocations.

Definition calculateDistance (loc1 loc2 : Location) : number :=
  let dx := THREE.x (coordinates loc1) - THREE.x (coordinates loc2) in
  let dy := THREE.y (coordinates loc1) - THREE.y (coordinates loc2) in
  let dz := THREE.z (coordinates loc1) - THREE.z (coordinates loc2) in
  PrimFloat.sqrt (dx * dx + dy * dy + dz * dz).

Record Instruction : Type := mkInstruction {
  type : string;
  text : string;
  distance : number;
  icon : string
}.

Definition generateNavigationInstructions (markedLocations : list Location)
  (originId destinationId : string) : list Instruction :=
  match find_location markedLocations originId,
        find_location markedLocations destinationId with
  | Some originLoc, Some destLoc =>
      [mkInstruction "start" ("Start at " ++ name originLoc) 0 "🚶";
       mkInstruction "turn" ("Head towards " ++ name destLoc)
         (calculateDistance originLoc destLoc) "➡️";
       mkInstruction "arrive" ("Arrive at " ++ name destLoc) 0 "🎯"]
  | _, _ => []
  end.

(** The selection of the panel: the ids picked as origin and destination,
    [""] while none is picked. *)
Record Selection : Type := mkSelection {
  origin : string;
  destination : string
}.

Definition handleSwapLocations (s : Selection) : Selection :=
  let temp := origin s in
  mkSelection (destination s) temp.

(** [origin && destination && origin !== destination] *)
Definition canStartNavigation (s : Selection) : bool :=
  negb (String.eqb (origin s) "")
  && negb (String.eqb (destination s) "")
  && negb (String.eqb (origin s) (destination s)).

End Navigation.

(* ================================================================== *)
(** ** The keys of [useThreeScene] *)

Module Keys.

(** The flags the key handlers keep. *)
Record keys : Type := mkKeys {
  ArrowUp : bool;
  ArrowDown : bool;
  ArrowLeft : bool;
  ArrowRight : bool;
  KeyW : bool;
  KeyS : bool;
  KeyA : bool;
  KeyD : bool
}.

Definition released : keys :=
  mkKeys false false false false false false false false.

(** The assignments of the four [case] groups. *)
Definition set_up (b : bool) (k : keys) : keys :=
  mkKeys b (ArrowDown k) (ArrowLeft k) (ArrowRight k)
         b (KeyS k) (KeyA k) (KeyD k).

Definition set_down (b : bool) (k : keys) : keys :=
  mkKeys (ArrowUp k) b (ArrowLeft k) (ArrowRight k)
         (KeyW k) b (KeyA k) (KeyD k).

Definition set_left (b : bool) (k : keys) : keys :=
  mkKeys (ArrowUp k) (ArrowDown k) b (ArrowRight k)
         (KeyW k) (KeyS k) b (KeyD k).

Definition set_right (b : bool) (k : keys) : keys :=
  mkKeys (ArrowUp k) (ArrowDown k) (ArrowLeft k) b
         (KeyW k) (KeyS k) (KeyA k) b.

Definition handleKeyDown (code : string) (k : keys) : keys :=
  if String.eqb code "ArrowUp" || String.eqb code "KeyW"
  then set_up true k
  else if String.eqb code "ArrowDown" || String.eqb code "KeyS"
  then set_down true k
  else if String.eqb code "ArrowLeft" || String.eqb code "KeyA"
  then set_left true k
  else if String.eqb code "ArrowRight" || String.eqb code "KeyD"
  then set_right true k
  else k.

Definition handleKeyUp (code : string) (k : keys) : keys :=
  if String.eqb code "ArrowUp" || String.eqb code "KeyW"
  then set_up false k
  else if String.eqb code "ArrowDown" || String.eqb code "KeyS"
  then set_down false k
  else if String.eqb code "ArrowLeft" || String.eqb code "KeyA"
  then set_left false k
  else if String.eqb code "ArrowRight" || String.eqb code "KeyD"
  then set_right false k
  else k.

(** A key event of the window. *)
Inductive key_event : Type :=
| KeyDown (code : string)
| KeyUp (code : string).

Definition handle (e : key_event) (k : keys) : keys :=
  match e with
  | KeyDown code => handleKeyDown code k
  | KeyUp code => handleKeyUp code k
  end.

Definition handleAll (es : list key_event) (k : keys) : keys :=
  fold_left (fun k e => handle e k) es k.

(** The four tests of the animation loop: which ways the camera moves in
    the frame. *)
Definition movesForward (k : keys) : bool := ArrowUp k || KeyW k.
Definition movesBackward (k : keys) : bool := ArrowDown k || KeyS k.
Definition movesLeft (k : keys) : bool := ArrowLeft k || KeyA k.
Definition movesRight (k : keys) : bool := ArrowRight k || KeyD k.

(** The four directions, the two codes of each, and its test. *)
Inductive direction : Type := Forward | Backward | Leftward | Rightward.

Definition codes (d : direction) : string * string :=
  match d with
  | Forward => ("ArrowUp"%string, "KeyW"%string)
  | Backward => ("ArrowDown"%string, "KeyS"%string)
  | Leftward => ("ArrowLeft"%string, "KeyA"%string)
  | Rightward => ("ArrowRight"%string, "KeyD"%string)
  end.

Definition moves (d : direction) (k : keys) : bool :=
  match d with
  | Forward => movesForward k
  | Backward => movesBackward k
  | Leftward => movesLeft k
  | Rightward => movesRight k
  end.

Definition code_of (e : key_event) : string :=
  match e with KeyDown code => code | KeyUp code => code end.

Definition is_down (e : key_event) : bool :=
  match e with KeyDown _ => true | KeyUp _ => false end.

(** The event is of one of the two keys of the direction. *)
Definition concerns (d : direction) (e : key_event) : bool :=
  String.eqb (code_of e) (fst (codes d))
  || String.eqb (code_of e) (snd (codes d)).

(** The flags of each direction go together. *)
Definition paired (k : keys) : Prop :=
  ArrowUp k = KeyW k /\ ArrowDown k = KeyS k
  /\ ArrowLeft k = KeyA k /\ ArrowRight k = KeyD k.

End Keys.

(* ================================================================== *)
(** ** The hierarchy list of [useModelLoader] *)

Module Hierarchy.

(** An object of the loaded scene: the fields [buildHierarchy] reads. *)
#[local] Unset Elimination Schemes.
Inductive Object3D : Type :=
| mkObject3D (uuid name type : string) (visible : bool)
    (children : list Object3D).
#[local] Set Elimination Schemes.

Definition uuid (o : Object3D) : string :=
  match o with mkObject3D u _ _ _ _ => u end.
Definition name (o : Object3D) : string :=
  match o with mkObject3D _ n _ _ _ => n end.
Definition type (o : Object3D) : string :=
  match o with mkObject3D _ _ t _ _ => t end.
Definition visible (o : Object3D) : bool :=
  match o with mkObject3D _ _ _ v _ => v end.
Definition children (o : Object3D) : list Object3D :=
  match o with mkObject3D _ _ _ _ c => c end.

(** A row of the hierarchy panel. *)
Record Item : Type := mkItem {
  item_id : string;
  item_name : string;
  depth : nat;
  item_visible : bool;
  isMesh : bool;
  hasChildren : bool;
  parentId : option string;
  object : Object3D
}.

(** The row [traverseObject] pushes for [o]. *)
Definition item_of (o : Object3D) (depth : nat) (parentId : option string)
  : Item :=
  mkItem (uuid o)
         (if String.eqb (name o) "" then "[" ++ type o ++ "]" else name o)
         depth (visible o) (String.eqb (type o) "Mesh")
         (Nat.ltb 0 (List.length (children o))) parentId o.

(** The rows pushed by [traverseObject(object, depth, parentId)]: the
    object's own, then those of each child in turn. *)
Fixpoint traverseObject (o : Object3D) (depth : nat)
  (parentId : option string) {struct o} : list Item :=
  match o with
  | mkObject3D u n t v cs =>
      item_of (mkObject3D u n t v cs) depth parentId
      :: (fix forEach (cs : list Object3D) : list Item :=
            match cs with
            | [] => []
            | child :: rest =>
                traverseObject child (S depth) (Some u) ++ forEach rest
            end) cs
  end.

Definition buildHierarchy (model : option Object3D) : list Item :=
  match model with
  | None => []
  | Some model => traverseObject model 0 None
  end.

(** The number of objects in a scene. *)
Fixpoint count (o : Object3D) : nat :=
  match o with
  | mkObject3D _ _ _ _ cs =>
      S ((fix sum (cs : list Object3D) : nat :=
            match cs with
            | [] => O
            | child :: rest => (count child + sum rest)%nat
            end) cs)
  end.

(** The objects of a scene, each before its children. *)
Fixpoint objects (o : Object3D) : list Object3D :=
  match o with
  | mkObject3D u n t v cs =>
      mkObject3D u n t v cs
      :: (fix each (cs : list Object3D) : list Object3D :=
            match cs with
            | [] => []
            | child :: rest => objects child ++ each rest
            end) cs
  end.

(** A small scene for the closed examples. *)
Definition tower : Object3D :=
  mkObject3D "u0" "Scene" "Group" true
    [mkObject3D "u1" "GF" "Mesh" true
       [mkObject3D "u2" "" "Mesh" false []];
     mkObject3D "u3" "Roof" "Mesh" true []].

End Hierarchy.

(* ================================================================== *)
(** ** Magnitudes of numbers *)

Module Magnitude.

(** Two numbers of the same magnitude, whatever their signs. *)
Definition same_size (x y : spec_float) : Prop :=
  match x, y with
  | S754_nan, S754_nan => True
  | S754_zero _, S754_zero _ => True
  | S754_infinity _, S754_infinity _ => True
  | S754_finite _ m e, S754_finite _ m' e' => m = m' /\ e = e'
  | _, _ => False
  end.

End Magnitude.

(* ================================================================== *)
(** ** States for the closed examples *)

Module Scenes.

Import JS Walker Driver.
Local Open Scope float_scope.

(** A walker with a progress callback and the corner path, not started. *)
Definition waiting : WalkingObject :=
  after coarse [SetOnProgress true; SetPath (Some corner)].

(** The refs of the hook once its effect has run, at 1000 ms on the
    browser's clock. *)
Definition mounted : Hook.State := Hook.mount 1000 Hook.initial.

(** The refs with the walker under way on the corner path and the camera
    following. *)
Definition following : Hook.State :=
  Hook.set_cameraFollowEnabled true
    (Hook.set_walkingObject (Some strolling) mounted).

(** A cosine for the closed examples, as coarse as [coarse]. *)
Definition coarse_cos (v : number) : number := 1.

(** A camera position and a target of the controls. *)
Definition a_camera : THREE.Vector3 * THREE.Vector3 :=
  (pt 5 5 5, pt 0 0 0).

End Scenes.

(* ================================================================== *)
(** ** Runs of heights *)

Module Runs.

Import JS.
Local Open Scope float_scope.



(** The groups the loop of [detectFloorLevels] goes through, the one it
    ends with included. *)
Fixpoint runs (currentGroup rest : list number) : list (list number) :=
  match rest with
  | [] => [currentGroup]
  | h :: rest' =>
      if h - last currentGroup nan <? 0.5
      then runs (currentGroup ++ [h]) rest'
      else currentGroup :: runs [h] rest'
  end.

End Runs.

(* ================================================================== *)
(** ** How the methods run *)

Module Facts.
Import JS Walker Driver.
Local Open Scope float_scope.

(** *** Running a method step by step *)

Lemma bind_this {B} (k : WalkingObject -> method B) w :
  bind this k w = k w w.
Proof. unfold bind, this. destruct (k w w); reflexivity. Qed.

Lemma bind_assign {B} f (k : unit -> method B) w :
  bind (assign f) k w = k tt (f w).
Proof. unfold bind, assign. destruct (k tt (f w)); reflexivity. Qed.

Lemma bind_ret {A B} (a : A) (k : A -> method B) w :
  bind (ret a) k w = k a w.
Proof. unfold bind, ret. destruct (k a w); reflexivity. Qed.

Lemma bind_path_at {B} i (k : THREE.Vector3 -> method B) w p :
  nth_error (path w) i = Some p -> bind (path_at i) k w = k p w.
Proof.
  intros E. unfold bind, path_at. rewrite E. destruct (k p w); reflexivity.
Qed.

Lemma bind_returned {A B} (m : method A) (k : A -> method B) w a w1 :
  m w = Returned a w1 [] -> bind m k w = k a w1.
Proof.
  intros E. unfold bind. rewrite E. destruct (k a w1); reflexivity.
Qed.

(** Both ends of a segment the index is on are in the path. *)
Lemma on_segment w :
  (currentPathIndex w + 1 < List.length (path w))%nat ->
  exists currentPos nextPos,
    nth_error (path w) (currentPathIndex w) = Some currentPos
    /\ nth_error (path w) (currentPathIndex w + 1) = Some nextPos.
Proof.
  intros H.
  destruct (nth_error (path w) (currentPathIndex w)) as [c|] eqn:Ec.
  2:{ apply nth_error_None in Ec. lia. }
  destruct (nth_error (path w) (currentPathIndex w + 1)) as [n|] eqn:En.
  2:{ apply nth_error_None in En. lia. }
  exists c, n. split; reflexivity.
Qed.

(** *** What each method comes to *)

Lemma set_rotation_y_same w : set_rotation_y (rotation_y (object w)) w = w.
Proof. destruct w as [[? ? ?] ? ? ? ? ? ? ? ? ?]. reflexivity. Qed.

Lemma lookAtNextPoint_spec M w :
  lookAtNextPoint M w = Returned tt (turned M w) [].
Proof.
  unfold lookAtNextPoint, turned. rewrite bind_this.
  destruct (currentPathIndex w + 1 <? List.length (path w))%nat eqn:E.
  - apply Nat.ltb_lt in E.
    destruct (on_segment w E) as (c & n & Ec & En).
    rewrite (bind_path_at _ _ _ _ Ec), (bind_path_at _ _ _ _ En), Ec, En.
    unfold yawToward, when.
    destruct (0 <? _); reflexivity.
  - apply Nat.ltb_ge in E.
    assert (En : nth_error (path w) (currentPathIndex w + 1) = None)
      by (apply nth_error_None; lia).
    rewrite En.
    destruct (nth_error (path w) (currentPathIndex w)); reflexivity.
Qed.

Lemma turned_rotation M w :
  exists a, turned M w = set_rotation_y a w.
Proof.
  unfold turned.
  destruct (nth_error (path w) (currentPathIndex w));
    [destruct (nth_error (path w) (currentPathIndex w + 1));
     [destruct (yawToward M _ _) as [a|]|]|];
    try (exists (rotation_y (object w)); symmetry; apply set_rotation_y_same).
  exists a. reflexivity.
Qed.

(** In a goal, or in a hypothesis [H], that mentions [turned M w1]: all
    that is kept of the turn is that it set the yaw. *)
Ltac forget_turn M :=
  match goal with
  | |- context [turned M ?w1] =>
      let a := fresh "a" in
      let Ha := fresh "Ha" in
      destruct (turned_rotation M w1) as [a Ha]; rewrite Ha
  end.

Ltac forget_turn_in M H :=
  match type of H with
  | context [turned M ?w1] =>
      let a := fresh "a" in
      let Ha := fresh "Ha" in
      destruct (turned_rotation M w1) as [a Ha]; rewrite Ha in H
  end.

Lemma animateIdle_spec M now w :
  animateIdle M now w = Returned tt (set_bodyParts (idlePose M now) w) [].
Proof. reflexivity. Qed.

Lemma animateWalking_spec M now deltaTime w :
  animateWalking M now deltaTime w =
  Returned tt
    (set_bodyParts (walkingPose M now (walkSpeed w) deltaTime) w) [].
Proof. reflexivity. Qed.

Lemma update_unfold M now deltaTime w :
  update M now deltaTime w =
  if negb (isWalking w) || (List.length (path w) <? 2)%nat
  then Returned tt (set_bodyParts (idlePose M now) w) []
  else if (List.length (path w) - 1 <=? currentPathIndex w)%nat
  then Returned tt (set_bodyParts (idlePose M now) (set_isWalking false w))
         (if onComplete w then [Complete] else [])
  else
    let p := raisedProgress w deltaTime in
    if 1 <=? p
    then
      let w1 := set_progress 0
                  (set_currentPathIndex (currentPathIndex w + 1) w) in
      Returned tt
        (set_bodyParts (walkingPose M now (walkSpeed w) deltaTime)
           (if (currentPathIndex w + 1 <? List.length (path w) - 1)%nat
            then turned M w1 else w1))
        (if onProgress w
         then [Progress (currentPathIndex w + 1) (List.length (path w))]
         else [])
    else
      match nth_error (path w) (currentPathIndex w),
            nth_error (path w) (currentPathIndex w + 1) with
      | Some currentPos, Some nextPos =>
          Returned tt
            (set_bodyParts (walkingPose M now (walkSpeed w) deltaTime)
               (set_position (THREE.lerpVectors currentPos nextPos p)
                  (set_progress p w)))
            []
      | _, _ => Thrown
      end.
Proof.
  unfold update. rewrite bind_this.
  destruct (negb (isWalking w) || (List.length (path w) <? 2)%nat) eqn:E1.
  { reflexivity. }
  destruct (List.length (path w) - 1 <=? currentPathIndex w)%nat eqn:E2.
  { rewrite bind_assign.
    rewrite (bind_returned _ _ _ _ _ (animateIdle_spec M now _)).
    destruct (onComplete w); reflexivity. }
  apply Nat.leb_gt in E2.
  destruct (on_segment w) as (c & n & Ec & En); [lia|].
  unfold raisedProgress. rewrite Ec, En.
  rewrite (bind_path_at _ _ _ _ Ec), (bind_path_at _ _ _ _ En).
  rewrite bind_assign, bind_this.
  cbn [progress set_progress]. cbv zeta.
  destruct (1 <=? _) eqn:E3.
  - unfold bind at 1.
    rewrite !bind_assign, bind_this.
    cbn [currentPathIndex path onProgress set_progress set_currentPathIndex].
    destruct (currentPathIndex w + 1 <? List.length (path w) - 1)%nat eqn:E4.
    + unfold when at 1.
      rewrite (bind_returned _ _ _ _ _ (lookAtNextPoint_spec M _)).
      change (set_progress 0
                (set_currentPathIndex (currentPathIndex w + 1)
                   (set_progress
                      (progress w
                       + walkSpeed w * deltaTime / THREE.distanceTo c n) w)))
        with (set_progress 0
                (set_currentPathIndex (currentPathIndex w + 1) w)).
      forget_turn M.
      destruct (onProgress w); reflexivity.
    + unfold when at 1. rewrite bind_ret.
      destruct (onProgress w); reflexivity.
  - reflexivity.
Qed.

(** Every frame goes one of the four ways; in particular [update] returns. *)
Lemma update_frame M now deltaTime w :
  exists w' out,
    update M now deltaTime w = Returned tt w' out
    /\ frame M now deltaTime w w' out.
Proof.
  rewrite update_unfold.
  destruct (isWalking w) eqn:Hw; cbn [negb orb].
  2:{ do 2 eexists. split; [reflexivity|]. apply frame_at_rest. now left. }
  destruct (List.length (path w) <? 2)%nat eqn:E1.
  { apply Nat.ltb_lt in E1.
    do 2 eexists. split; [reflexivity|]. apply frame_at_rest. now right. }
  apply Nat.ltb_ge in E1.
  destruct (List.length (path w) - 1 <=? currentPathIndex w)%nat eqn:E2.
  { apply Nat.leb_le in E2.
    do 2 eexists. split; [reflexivity|]. now apply frame_ends_walk. }
  apply Nat.leb_gt in E2. cbv zeta.
  destruct (on_segment w) as (c & n & Ec & En); [lia|].
  destruct (1 <=? raisedProgress w deltaTime) eqn:E3.
  - destruct (currentPathIndex w + 1 <? List.length (path w) - 1)%nat.
    + forget_turn M. do 2 eexists. split; [reflexivity|].
      apply frame_crosses; [exact Hw|lia|exact E3].
    + rewrite <- (set_rotation_y_same
                    (set_progress 0
                       (set_currentPathIndex (currentPathIndex w + 1) w))).
      do 2 eexists. split; [reflexivity|].
      apply frame_crosses; [exact Hw|lia|exact E3].
  - rewrite Ec, En. do 2 eexists. split; [reflexivity|].
    now apply frame_within.
Qed.

Lemma setPath_unfold M worldPath w :
  setPath M worldPath w =
  match worldPath with
  | None => Returned tt w [Warn "Invalid path provided to walking object"]
  | Some l =>
      if (List.length l <? 2)%nat
      then Returned tt w [Warn "Invalid path provided to walking object"]
      else
        match l with
        | first :: _ =>
            Returned tt
              (turned M
                 (set_visible true
                    (set_position first
                       (set_isWalking false
                          (set_progress 0
                             (set_currentPathIndex 0 (set_path l w)))))))
              []
        | [] => Thrown
        end
  end.
Proof.
  unfold setPath. destruct worldPath as [l|]; [|reflexivity].
  destruct (List.length l <? 2)%nat eqn:E; [reflexivity|].
  apply Nat.ltb_ge in E.
  destruct l as [|first rest]; [cbn in E; lia|].
  rewrite !bind_assign.
  rewrite (bind_path_at _ _ _ first) by reflexivity.
  rewrite !bind_assign, bind_this.
  cbn [path set_visible set_position set_isWalking set_progress
       set_currentPathIndex set_path].
  replace (1 <? List.length (first :: rest))%nat with true
    by (symmetry; apply Nat.ltb_lt; exact E).
  unfold when. apply lookAtNextPoint_spec.
Qed.

Lemma startWalking_unfold M w :
  startWalking M w =
  if (List.length (path w) <? 2)%nat
  then Returned tt w [Warn "Cannot start walking: no valid path set"]
  else if (currentPathIndex w =? 0)%nat && (progress w =? 0)
  then
    match path w with
    | first :: _ =>
        Returned tt (turned M (set_position first (set_isWalking true w)))
          (if onProgress w
           then [Progress 0 (List.length (path w))] else [])
    | [] => Thrown
    end
  else Returned tt (set_isWalking true w) [].
Proof.
  unfold startWalking. rewrite bind_this.
  destruct (List.length (path w) <? 2)%nat eqn:E; [reflexivity|].
  apply Nat.ltb_ge in E.
  rewrite bind_assign.
  destruct ((currentPathIndex w =? 0)%nat && (progress w =? 0));
    [|reflexivity].
  destruct (path w) as [|first rest] eqn:Ep; [cbn in E; lia|].
  unfold when at 1.
  rewrite (bind_path_at _ _ _ first) by (cbn; rewrite Ep; reflexivity).
  rewrite bind_assign.
  rewrite (bind_returned _ _ _ _ _ (lookAtNextPoint_spec M _)).
  destruct (onProgress w); reflexivity.
Qed.

Lemma resetPosition_unfold M now w :
  resetPosition M now w =
  match path w with
  | first :: _ =>
      Returned tt
        (set_bodyParts (idlePose M now)
           (turned M
              (set_position first
                 (set_progress 0 (set_currentPathIndex 0 w)))))
        []
  | [] => Returned tt w []
  end.
Proof.
  unfold resetPosition. rewrite bind_this.
  destruct (path w) as [|first rest] eqn:Ep; [reflexivity|].
  cbn [List.length Nat.ltb Nat.leb when].
  rewrite !bind_assign.
  rewrite (bind_path_at _ _ _ first) by (cbn; rewrite Ep; reflexivity).
  rewrite bind_assign.
  rewrite (bind_returned _ _ _ _ _ (lookAtNextPoint_spec M _)).
  apply animateIdle_spec.
Qed.

(** *** No call throws, and the fields stay well formed *)

Lemma well_formed_new : well_formed new.
Proof. unfold well_formed. cbn. lia. Qed.

Lemma well_formed_turned M w : well_formed w -> well_formed (turned M w).
Proof. destruct (turned_rotation M w) as [a ->]. intros H. exact H. Qed.

Lemma frame_keeps_well_formed M now deltaTime w w' out :
  frame M now deltaTime w w' out -> well_formed w -> well_formed w'.
Proof.
  intros F [H1 H2]. destruct F; unfold well_formed; cbn; split; auto; lia.
Qed.

Lemma perform_keeps_well_formed M c w :
  exists w' out,
    perform M c w = Returned tt w' out /\ (well_formed w -> well_formed w').
Proof.
  destruct c; cbn [perform];
    try (do 2 eexists; split; [reflexivity|]; intros H; exact H).
  - (* setPath *)
    rewrite setPath_unfold. destruct worldPath as [l|].
    2:{ do 2 eexists. split; [reflexivity|]. auto. }
    destruct (List.length l <? 2)%nat eqn:E.
    { do 2 eexists. split; [reflexivity|]. auto. }
    apply Nat.ltb_ge in E. destruct l as [|first rest]; [cbn in E; lia|].
    do 2 eexists. split; [reflexivity|]. intros _.
    apply well_formed_turned. unfold well_formed. cbn in *. lia.
  - (* startWalking *)
    rewrite startWalking_unfold.
    destruct (List.length (path w) <? 2)%nat eqn:E.
    { do 2 eexists. split; [reflexivity|]. auto. }
    apply Nat.ltb_ge in E.
    destruct ((currentPathIndex w =? 0)%nat && (progress w =? 0)%float).
    2:{ do 2 eexists. split; [reflexivity|]. auto. }
    destruct (path w) as [|first rest] eqn:Ep; [cbn in E; lia|].
    do 2 eexists. split; [reflexivity|]. intros H.
    apply well_formed_turned. exact H.
  - (* resumeWalking *)
    unfold resumeWalking. rewrite bind_this.
    destruct (List.length (path w) <? 2)%nat;
      do 2 eexists; (split; [reflexivity|]); auto.
  - (* resetPosition *)
    rewrite resetPosition_unfold.
    destruct (path w) as [|first rest] eqn:Ep.
    { do 2 eexists. split; [reflexivity|]. auto. }
    do 2 eexists. split; [reflexivity|]. intros [H1 H2].
    apply (well_formed_turned M
             (set_position first
                (set_progress 0 (set_currentPathIndex 0 w)))).
    unfold well_formed. cbn. split; [exact H1|lia].
  - (* update *)
    destruct (update_frame M now deltaTime w) as (w' & out & E & F).
    exists w', out. split; [exact E|].
    exact (frame_keeps_well_formed M now deltaTime w w' out F).
Qed.

Lemma performAll_keeps_well_formed M cs :
  forall w, exists w' out,
    performAll M cs w = Returned tt w' out
    /\ (well_formed w -> well_formed w').
Proof.
  induction cs as [|c cs IH]; intros w.
  - exists w, []. split; [reflexivity|auto].
  - destruct (perform_keeps_well_formed M c w) as (w1 & out1 & E1 & H1).
    destruct (IH w1) as (w2 & out2 & E2 & H2).
    exists w2, (out1 ++ out2). split; [|auto].
    cbn [performAll]. unfold bind. rewrite E1, E2. reflexivity.
Qed.

Lemma reachable_well_formed M w : reachable M w -> well_formed w.
Proof.
  intros (cs & out & E).
  destruct (performAll_keeps_well_formed M cs new) as (w' & out' & E' & H).
  rewrite E in E'. inversion E'; subst w'. exact (H well_formed_new).
Qed.

(** *** A walker at rest *)

Lemma update_at_rest M now deltaTime w :
  isWalking w = false ->
  update M now deltaTime w
  = Returned tt (set_bodyParts (idlePose M now) w) [].
Proof. intros H. rewrite update_unfold, H. reflexivity. Qed.

Lemma perform_at_rest M c w :
  within_traversal c = true ->
  isWalking w = false ->
  exists w', perform M c w = Returned tt w' [] /\ isWalking w' = false.
Proof.
  intros Hc Hw.
  destruct c; try discriminate Hc; cbn [perform];
    try rewrite update_at_rest by exact Hw;
    eexists; (split; [reflexivity|]); first [reflexivity | exact Hw].
Qed.

Lemma performAll_at_rest M cs :
  forallb within_traversal cs = true ->
  forall w, isWalking w = false ->
  exists w', performAll M cs w = Returned tt w' [] /\ isWalking w' = false.
Proof.
  induction cs as [|c cs IH]; intros Hcs w Hw.
  - exists w. split; [reflexivity|exact Hw].
  - cbn in Hcs. apply andb_true_iff in Hcs. destruct Hcs as [Hc Hcs].
    destruct (perform_at_rest M c w Hc Hw) as [w1 [E1 Hw1]].
    destruct (IH Hcs w1 Hw1) as [w2 [E2 Hw2]].
    exists w2. split; [|exact Hw2].
    cbn [performAll]. rewrite (bind_returned _ _ _ _ _ E1). exact E2.
Qed.

(** *** Completion *)

Lemma completions_app out1 out2 :
  completions (out1 ++ out2) = (completions out1 + completions out2)%nat.
Proof.
  unfold completions. rewrite filter_app, length_app. reflexivity.
Qed.

(** A frame reports completion only by ending the walk. *)
Lemma frame_completion M now deltaTime w w' out :
  frame M now deltaTime w w' out ->
  completions out = 0%nat
  \/ (completions out = 1%nat /\ isWalking w' = false).
Proof.
  intros F. destruct F.
  - left. reflexivity.
  - destruct (onComplete w); [right; split|left]; reflexivity.
  - left. destruct (onProgress w); reflexivity.
  - left. reflexivity.
Qed.

Lemma perform_completes_at_most_once M c w :
  within_traversal c = true ->
  exists w' out,
    perform M c w = Returned tt w' out
    /\ (completions out = 0%nat
        \/ (completions out = 1%nat /\ isWalking w' = false)).
Proof.
  intros Hc.
  destruct c; try discriminate Hc; cbn [perform];
    try (do 2 eexists; split; [reflexivity|left; reflexivity]).
  destruct (update_frame M now deltaTime w) as (w' & out & E & F).
  exists w', out. split; [exact E|].
  exact (frame_completion M now deltaTime w w' out F).
Qed.

(** From any state, calls that leave the traversal alone report at most one
    completion between them. *)
Lemma traversal_completes_at_most_once M cs :
  forallb within_traversal cs = true ->
  forall w, exists w' out,
    performAll M cs w = Returned tt w' out /\ (completions out <= 1)%nat.
Proof.
  induction cs as [|c cs IH]; intros Hcs w.
  - exists w, []. split; [reflexivity|cbn; lia].
  - cbn in Hcs. apply andb_true_iff in Hcs. destruct Hcs as [Hc Hcs].
    destruct (perform_completes_at_most_once M c w Hc)
      as (w1 & out1 & E1 & H1).
    cbn [performAll]. unfold bind. rewrite E1.
    destruct H1 as [H0|[H1 Hrest]].
    + destruct (IH Hcs w1) as (w2 & out2 & E2 & H2). rewrite E2.
      do 2 eexists. split; [reflexivity|].
      rewrite completions_app. lia.
    + destruct (performAll_at_rest M cs Hcs w1 Hrest) as (w2 & E2 & _).
      rewrite E2. do 2 eexists. split; [reflexivity|].
      rewrite completions_app, H1. cbn. lia.
Qed.

(** *** Reaching the end of the path *)

(** A frame that ends a walk finds the index on or past the last waypoint
    and writes only [isWalking] and the pose. *)
Lemma frame_that_ends_walk M now deltaTime w w' out :
  frame M now deltaTime w w' out ->
  isWalking w = true ->
  isWalking w' = false ->
  (List.length (path w) - 1 <= currentPathIndex w)%nat
  /\ currentPathIndex w' = currentPathIndex w
  /\ progress w' = progress w
  /\ position (object w') = position (object w)
  /\ out = (if onComplete w then [Complete] else []).
Proof.
  intros F Hw Hw'. destruct F; cbn in Hw'; try congruence.
  cbn. repeat split; auto.
Qed.

Lemma frame_moves_one_waypoint M now deltaTime w w' out :
  frame M now deltaTime w w' out ->
  path w' = path w
  /\ (currentPathIndex w' <= currentPathIndex w + 1)%nat
  /\ (1 <= completions out ->
      List.length (path w) <= currentPathIndex w + 1)%nat.
Proof.
  intros F. destruct F; cbn; repeat split; try lia.
  - destruct (onProgress w); cbn; lia.
Qed.

(** Frames alone cannot report a walk complete before there have been as
    many of them as waypoints from the index on, however long they are. *)
Lemma completion_takes_a_frame_per_waypoint M cs :
  only_updates cs = true ->
  forall w w' out,
    performAll M cs w = Returned tt w' out ->
    path w' = path w
    /\ (currentPathIndex w' <= currentPathIndex w + List.length cs)%nat
    /\ (1 <= completions out ->
        List.length (path w) <= currentPathIndex w + List.length cs)%nat.
Proof.
  induction cs as [|c cs IH]; intros Hcs w w' out E.
  - inversion E; subst. cbn. repeat split; lia.
  - cbn in Hcs. apply andb_true_iff in Hcs. destruct Hcs as [Hc Hcs].
    destruct c; try discriminate Hc. cbn [performAll perform] in E.
    destruct (update_frame M now deltaTime w) as (w1 & out1 & E1 & F).
    unfold bind in E. rewrite E1 in E.
    destruct (performAll M cs w1) as [[] w2 out2|] eqn:E2; [|discriminate E].
    inversion E; subst w2 out.
    destruct (frame_moves_one_waypoint M now deltaTime w w1 out1 F)
      as (Hp1 & Hi1 & Hc1).
    destruct (IH Hcs w1 w' out2 E2) as (Hp2 & Hi2 & Hc2).
    rewrite Hp1 in Hp2, Hc2.
    split; [exact Hp2|]. split; [cbn; lia|].
    rewrite completions_app. cbn [List.length]. intros Hsome.
    destruct (completions out1) as [|k1].
    + assert (H2 : (1 <= completions out2)%nat) by lia.
      specialize (Hc2 H2). lia.
    + assert (H1 : (1 <= S k1)%nat) by lia.
      specialize (Hc1 H1). lia.
Qed.

(** C1 (as the code has it).  On the straight ten-unit path at speed 2,
    five one-second frames bring the index to the last waypoint with
    [progress] 0; the walker is then still walking, no completion has been
    reported, and the figure stands on the point the fourth frame
    interpolated.  The sixth frame ends the walk: it calls the completion
    callback once and changes neither the index nor the position.  In
    general a frame that ends a walk finds the index on the last waypoint
    (index N-1 of N, in a well-formed state) and changes only [isWalking]
    and the pose; and frames alone do not report a walk over N waypoints
    complete before the N-th of them, however the time is split. *)
Theorem walk_ends_a_frame_after_the_last_boundary M :
  let w5 := after M (started straight ++ frames 5 clock 1) in
  let w6 := after M (started straight ++ frames 6 clock 1) in
  (exists out5,
     performAll M (started straight ++ frames 5 clock 1) new
     = Returned tt w5 out5
     /\ completions out5 = 0%nat)
  /\ (isWalking w5 = true
      /\ currentPathIndex w5 = 1%nat
      /\ progress w5 = 0
      /\ position (object w5) = pt 8 0 0)
  /\ update M (clock + 5000) 1 w5 = Returned tt w6 [Complete]
  /\ (motionState w6 = Completed
      /\ currentPathIndex w6 = 1%nat
      /\ position (object w6) = pt 8 0 0)
  /\ (forall now deltaTime w w' out,
        update M now deltaTime w = Returned tt w' out ->
        isWalking w = true ->
        isWalking w' = false ->
        (List.length (path w) - 1 <= currentPathIndex w)%nat
        /\ currentPathIndex w' = currentPathIndex w
        /\ progress w' = progress w
        /\ position (object w') = position (object w)
        /\ out = (if onComplete w then [Complete] else [])
        /\ (well_formed w ->
            currentPathIndex w' = (List.length (path w) - 1)%nat))
  /\ (forall cs w w' out,
        only_updates cs = true ->
        performAll M cs w = Returned tt w' out ->
        (1 <= completions out)%nat ->
        (List.length (path w) <= currentPathIndex w + List.length cs)%nat).
Proof.
  cbv zeta. split; [|split; [|split; [|split; [|split]]]].
  - eexists. split; [vm_compute; reflexivity|reflexivity].
  - repeat split; vm_compute; reflexivity.
  - vm_compute. reflexivity.
  - repeat split; vm_compute; reflexivity.
  - intros now deltaTime w w' out E Hw Hw'.
    destruct (update_frame M now deltaTime w) as (w1 & out1 & E1 & F).
    rewrite E in E1. inversion E1; subst w1 out1.
    destruct (frame_that_ends_walk M now deltaTime w w' out F Hw Hw')
      as (Hlast & Hidx & Hp & Hpos & Hout).
    repeat split; auto. intros [_ Hle]. lia.
  - intros cs w w' out Hcs E Hsome.
    destruct (completion_takes_a_frame_per_waypoint M cs Hcs w w' out E)
      as (_ & _ & H).
    exact (H Hsome).
Qed.

(** Against C1 as the specification words it, on its own scenario: after
    five one-second frames the walk is not completed, and the figure is not
    on the last waypoint either. *)
Lemma five_frames_do_not_complete_the_walk :
  ~ (forall M : Math,
       exists w out,
         performAll M (started straight ++ frames 5 clock 1) new
         = Returned tt w out
         /\ (motionState w = Completed
             \/ position (object w) = pt 10 0 0)).
Proof.
  intros H. destruct (H coarse) as (w & out & E & Hw).
  vm_compute in E. inversion E; subst w.
  destruct Hw as [Hm|Hpos].
  - discriminate Hm.
  - apply (f_equal (fun v => PrimFloat.eqb (THREE.x v) 10)) in Hpos.
    vm_compute in Hpos. discriminate Hpos.
Qed.

(** *** The shape of the reachable states *)

(** C2 (as the code has it).  In every state a walker can get into, the
    path is empty or has at least two waypoints and the index is on one of
    them, the last one included.  From such a state an [update] that finds
    the walker on a segment either stays on the segment and puts the figure
    on the interpolated point, or moves the index on and leaves the figure
    where it was; [resetPosition], with a path, and [setPath], with a path
    it accepts, put the figure on the first waypoint. *)
Theorem reachable_walker_shape M w :
  reachable M w ->
  well_formed w
  /\ (forall now deltaTime w' out,
        update M now deltaTime w = Returned tt w' out ->
        advancing w = true ->
        (currentPathIndex w' = currentPathIndex w
         /\ interpolated w' = Some (position (object w')))
        \/ (currentPathIndex w' = (currentPathIndex w + 1)%nat
            /\ position (object w') = position (object w)))
  /\ (forall now w' out,
        resetPosition M now w = Returned tt w' out ->
        path w <> [] ->
        nth_error (path w') 0 = Some (position (object w')))
  /\ (forall worldPath w' out,
        setPath M (Some worldPath) w = Returned tt w' out ->
        (2 <= List.length worldPath)%nat ->
        nth_error (path w') 0 = Some (position (object w'))).
Proof.
  intros Hr. split; [exact (reachable_well_formed M w Hr)|].
  split; [|split].
  - intros now deltaTime w' out E Hadv.
    unfold advancing in Hadv.
    apply andb_true_iff in Hadv. destruct Hadv as [Hadv H3].
    apply andb_true_iff in Hadv. destruct Hadv as [H1 H2].
    apply Nat.leb_le in H2. apply Nat.ltb_lt in H3.
    destruct (update_frame M now deltaTime w) as (w1 & out1 & E1 & F).
    rewrite E in E1. inversion E1; subst w1 out1.
    destruct F as [[Hrest|Hshort]|_ _ Hlast|a _ _ _|c n _ Ec En _].
    + congruence.
    + lia.
    + lia.
    + right. split; reflexivity.
    + left. split; [reflexivity|].
      unfold interpolated. cbn. rewrite Ec, En. reflexivity.
  - intros now w' out E Hp.
    rewrite resetPosition_unfold in E.
    destruct (path w) as [|first rest] eqn:Ep; [contradiction|].
    forget_turn_in M E.
    inversion E; subst. cbn. rewrite Ep. reflexivity.
  - intros worldPath w' out E Hlen.
    rewrite setPath_unfold in E.
    replace (List.length worldPath <? 2)%nat with false in E
      by (symmetry; apply Nat.ltb_ge; exact Hlen).
    destruct worldPath as [|first rest]; [discriminate E|].
    forget_turn_in M E.
    inversion E; subst. reflexivity.
Qed.

Lemma reachable_walker_shape_witness :
  reachable coarse strolling
  /\ well_formed strolling
  /\ (forall now deltaTime w' out,
        update coarse now deltaTime strolling = Returned tt w' out ->
        advancing strolling = true ->
        (currentPathIndex w' = currentPathIndex strolling
         /\ interpolated w' = Some (position (object w')))
        \/ (currentPathIndex w' = (currentPathIndex strolling + 1)%nat
            /\ position (object w') = position (object strolling)))
  /\ (forall now w' out,
        resetPosition coarse now strolling = Returned tt w' out ->
        path strolling <> [] ->
        nth_error (path w') 0 = Some (position (object w')))
  /\ (forall worldPath w' out,
        setPath coarse (Some worldPath) strolling = Returned tt w' out ->
        (2 <= List.length worldPath)%nat ->
        nth_error (path w') 0 = Some (position (object w'))).
Proof.
  assert (Hr : reachable coarse strolling).
  { exists (started corner ++ frames 2 clock 1). eexists.
    vm_compute. reflexivity. }
  split; [exact Hr|].
  exact (reachable_walker_shape coarse strolling Hr).
Defined.

(** Against C2 as the specification words it, twice.  After the frame that
    crosses the last boundary of [straight] the walker is still walking
    with the index on the last waypoint; and after the frame that crosses
    the first boundary of [corner] the figure stands where the frame before
    left it, which is neither the interpolated point of the new segment nor
    the first waypoint. *)
Lemma walking_index_and_position_fail :
  ~ (forall M w, reachable M w -> motionState w = Walking ->
       (currentPathIndex w < List.length (path w) - 1)%nat)
  /\ ~ (forall M w, reachable M w -> motionState w = Walking ->
          interpolated w = Some (position (object w))
          \/ nth_error (path w) 0 = Some (position (object w))).
Proof.
  split; intros H.
  - specialize (H coarse arriving).
    assert (Hlt : (1 < 1)%nat); [|lia].
    apply H.
    + exists (started straight ++ frames 5 clock 1). eexists.
      vm_compute. reflexivity.
    + vm_compute. reflexivity.
  - specialize (H coarse (after coarse (started corner ++ frames 5 clock 1))).
    assert (Hpos : position
                     (object
                        (after coarse (started corner ++ frames 5 clock 1)))
                   = pt 8 0 0) by (vm_compute; reflexivity).
    destruct H as [H|H].
    + exists (started corner ++ frames 5 clock 1). eexists.
      vm_compute. reflexivity.
    + vm_compute. reflexivity.
    + rewrite Hpos in H. vm_compute in H.
      apply (f_equal (fun o => match o with
                               | Some v => PrimFloat.eqb (THREE.x v) 8
                               | None => false
                               end)) in H.
      vm_compute in H. discriminate H.
    + rewrite Hpos in H. vm_compute in H.
      apply (f_equal (fun o => match o with
                               | Some v => PrimFloat.eqb (THREE.x v) 8
                               | None => false
                               end)) in H.
      vm_compute in H. discriminate H.
Qed.

(** *** Floor levels *)

(** C3 (as the code has it).  On the elevations 0.0, 0.05, 3.0 and 3.02 the
    detector first rounds to one decimal, which leaves the set 0, 0.1, 3; it
    returns two levels, the mean 0.05 of the group 0, 0.1 and the mean 3 of
    the group 3.  The pairing of the elevations into boxes does not
    matter. *)
Theorem detectFloorLevels_two_slabs :
  fold_left FloorLevels.addHeights two_slabs [] = [0; 0.1; 3]
  /\ FloorLevels.detectFloorLevels two_slabs = [0.05; 3]
  /\ FloorLevels.detectFloorLevels
       [FloorLevels.slab 0.05 3.02; FloorLevels.slab 0.0 3.0]
     = [0.05; 3].
Proof.
  split; [|split].
  - unfold two_slabs. cbn [fold_left]. vm_compute. reflexivity.
  - unfold FloorLevels.detectFloorLevels, two_slabs. vm_compute. reflexivity.
  - unfold FloorLevels.detectFloorLevels. vm_compute. reflexivity.
Qed.

(** Against C3 as the specification words it: the two levels returned are
    not within a hundredth of 0.025 and 3.01. *)
Lemma detectFloorLevels_means_are_of_rounded_heights :
  ~ (exists m1 m2,
       FloorLevels.detectFloorLevels two_slabs = [m1; m2]
       /\ FloorLevels.close_to 0.01 m1 0.025 = true
       /\ FloorLevels.close_to 0.01 m2 3.01 = true).
Proof.
  intros (m1 & m2 & E & H1 & _).
  vm_compute in E. inversion E; subst m1.
  vm_compute in H1. discriminate H1.
Qed.

(** *** Yaw *)

(** C4.  A step straight up has a direction of length 1 once normalized, so
    [lookAtNextPoint] does not keep the yaw: it overwrites it with
    [Math.atan2(0, 0)], whatever the yaw was.  Only a step between two equal
    waypoints leaves the yaw alone. *)
Theorem vertical_step_overwrites_yaw M w :
  yawToward M (pt 0 0 0) (pt 0 3 0) = Some (atan2 M 0 0)
  /\ yawToward M (pt 5 0 0) (pt 5 0 0) = None
  /\ exists w',
       setPath M (Some lift) w = Returned tt w' []
       /\ rotation_y (object w') = atan2 M 0 0.
Proof.
  split; [vm_compute; reflexivity|]. split; [vm_compute; reflexivity|].
  rewrite setPath_unfold. eexists. split; reflexivity.
Qed.

(** *** Paths that are turned down *)

(** C5. [setPath] turns down a missing path and a path of fewer than two
    points: it returns without throwing, leaves every field of the walker
    as it was, and its one effect is the warning on the console. *)
Theorem setPath_rejects_short_path M worldPath w :
  too_short worldPath ->
  setPath M worldPath w
  = Returned tt w [Warn "Invalid path provided to walking object"].
Proof.
  intros H. rewrite setPath_unfold.
  destruct worldPath as [l|]; [|reflexivity].
  cbn in H. apply Nat.ltb_lt in H. rewrite H. reflexivity.
Qed.

Lemma setPath_rejects_short_path_witness :
  too_short (Some [pt 1 2 3])
  /\ setPath coarse (Some [pt 1 2 3]) strolling
     = Returned tt strolling
         [Warn "Invalid path provided to walking object"].
Proof.
  assert (H : too_short (Some [pt 1 2 3])) by (cbn; lia).
  split; [exact H|].
  exact (setPath_rejects_short_path coarse (Some [pt 1 2 3]) strolling H).
Defined.

(** *** One completion *)

(** C6. An [update] that calls the completion callback calls it once and
    puts the walker at rest; whatever is called after it, short of
    [setPath], [startWalking], [resumeWalking] and [resetPosition], returns
    without calling a callback again, further [update]s included. *)
Theorem completion_fires_once M now deltaTime w w' out :
  update M now deltaTime w = Returned tt w' out ->
  In Complete out ->
  completions out = 1%nat
  /\ isWalking w' = false
  /\ forall cs, forallb within_traversal cs = true ->
       exists w'', performAll M cs w' = Returned tt w'' []
                   /\ isWalking w'' = false.
Proof.
  intros E Hin.
  destruct (update_frame M now deltaTime w) as (w1 & out1 & E1 & F).
  rewrite E in E1. inversion E1; subst w1 out1.
  assert (Hrest : isWalking w' = false /\ completions out = 1%nat).
  { destruct F.
    - destruct Hin.
    - destruct (onComplete w); [split; reflexivity|destruct Hin].
    - destruct (onProgress w); cbn in Hin; intuition discriminate.
    - destruct Hin. }
  destruct Hrest as [Hw' Hone].
  split; [exact Hone|]. split; [exact Hw'|].
  intros cs Hcs. exact (performAll_at_rest M cs Hcs w' Hw').
Qed.

Lemma completion_fires_once_witness :
  update coarse (clock + 5000) 1 arriving = Returned tt arrived [Complete]
  /\ In Complete [Complete]
  /\ completions [Complete] = 1%nat
  /\ isWalking arrived = false
  /\ forall cs, forallb within_traversal cs = true ->
       exists w'', performAll coarse cs arrived = Returned tt w'' []
                   /\ isWalking w'' = false.
Proof.
  assert (E : update coarse (clock + 5000) 1 arriving
              = Returned tt arrived [Complete])
    by (vm_compute; reflexivity).
  assert (Hin : In Complete [Complete]) by (left; reflexivity).
  split; [exact E|]. split; [exact Hin|].
  exact (completion_fires_once coarse (clock + 5000) 1 _ _ _ E Hin).
Defined.

(** *** Division by a zero length *)

Lemma positive_over_zero m : (0 <? m) = true -> m / 0 = infinity.
Proof.
  intros Hm. rewrite FloatAxioms.ltb_spec in Hm.
  apply Prim2SF_inj. rewrite FloatAxioms.div_spec.
  change (Prim2SF 0) with (S754_zero false) in *.
  change (Prim2SF infinity) with (S754_infinity false).
  destruct (Prim2SF m) as [s|s| |s mm e]; try discriminate Hm.
  - destruct s; [discriminate Hm|reflexivity].
  - destruct s; [discriminate Hm|reflexivity].
Qed.

Lemma nonnegative_plus_infinity p :
  (0 <=? p) = true -> p + infinity = infinity.
Proof.
  intros Hp. rewrite FloatAxioms.leb_spec in Hp.
  apply Prim2SF_inj. rewrite FloatAxioms.add_spec.
  change (Prim2SF 0) with (S754_zero false) in *.
  change (Prim2SF infinity) with (S754_infinity false).
  destruct (Prim2SF p) as [s|s| |s mm e]; try discriminate Hp.
  - reflexivity.
  - destruct s; [discriminate Hp|reflexivity].
  - reflexivity.
Qed.

(** C7 (as the code has it).  [update] has no test for a segment of zero
    length: it divides.  When the walker moves forward in the frame
    ([walkSpeed * deltaTime > 0]) from a progress that is not negative, the
    quotient is +infinity, so the raised progress is +infinity, the boundary
    test succeeds and the walk goes on to the next segment with [progress]
    0; the call returns, and its only event is the progress callback, when
    one is installed. *)
Theorem zero_length_segment_is_crossed
  M now deltaTime w currentPos nextPos :
  isWalking w = true ->
  nth_error (path w) (currentPathIndex w) = Some currentPos ->
  nth_error (path w) (currentPathIndex w + 1) = Some nextPos ->
  THREE.distanceTo currentPos nextPos = 0 ->
  (0 <? walkSpeed w * deltaTime) = true ->
  (0 <=? progress w) = true ->
  raisedProgress w deltaTime = infinity
  /\ exists w',
       update M now deltaTime w
       = Returned tt w'
           (if onProgress w
            then [Progress (currentPathIndex w + 1) (List.length (path w))]
            else [])
       /\ currentPathIndex w' = (currentPathIndex w + 1)%nat
       /\ progress w' = 0
       /\ position (object w') = position (object w)
       /\ path w' = path w
       /\ isWalking w' = true.
Proof.
  intros Hw Ec En Hzero Hmove Hp.
  assert (Hraised : raisedProgress w deltaTime = infinity).
  { unfold raisedProgress. rewrite Ec, En, Hzero.
    rewrite (positive_over_zero _ Hmove).
    apply nonnegative_plus_infinity. exact Hp. }
  split; [exact Hraised|].
  assert (Hin : (currentPathIndex w + 1 < List.length (path w))%nat)
    by (apply nth_error_Some; rewrite En; discriminate).
  destruct (update_frame M now deltaTime w) as (w' & out & E & F).
  exists w'.
  destruct F as [[Hrest|Hshort]|_ _ Hlast|a _ _ _|c n _ _ _ Hbelow].
  - congruence.
  - lia.
  - lia.
  - split; [exact E|]. cbn. repeat split; auto.
  - rewrite Hraised in Hbelow. discriminate Hbelow.
Qed.

Lemma zero_length_segment_is_crossed_witness :
  isWalking stuttering = true
  /\ nth_error (path stuttering) (currentPathIndex stuttering)
     = Some (pt 0 0 0)
  /\ nth_error (path stuttering) (currentPathIndex stuttering + 1)
     = Some (pt 0 0 0)
  /\ THREE.distanceTo (pt 0 0 0) (pt 0 0 0) = 0
  /\ (0 <? walkSpeed stuttering * 1) = true
  /\ (0 <=? progress stuttering) = true
  /\ raisedProgress stuttering 1 = infinity
  /\ exists w',
       update coarse clock 1 stuttering
       = Returned tt w'
           (if onProgress stuttering
            then [Progress (currentPathIndex stuttering + 1)
                    (List.length (path stuttering))]
            else [])
       /\ currentPathIndex w' = (currentPathIndex stuttering + 1)%nat
       /\ progress w' = 0
       /\ position (object w') = position (object stuttering)
       /\ path w' = path stuttering
       /\ isWalking w' = true.
Proof.
  assert (H1 : isWalking stuttering = true) by (vm_compute; reflexivity).
  assert (H2 : nth_error (path stuttering) (currentPathIndex stuttering)
               = Some (pt 0 0 0)) by (vm_compute; reflexivity).
  assert (H3 : nth_error (path stuttering) (currentPathIndex stuttering + 1)
               = Some (pt 0 0 0)) by (vm_compute; reflexivity).
  assert (H4 : THREE.distanceTo (pt 0 0 0) (pt 0 0 0) = 0)
    by (vm_compute; reflexivity).
  assert (H5 : (0 <? walkSpeed stuttering * 1) = true)
    by (vm_compute; reflexivity).
  assert (H6 : (0 <=? progress stuttering) = true)
    by (vm_compute; reflexivity).
  repeat (split; [assumption|]).
  exact (zero_length_segment_is_crossed coarse clock 1 _ _ _
           H1 H2 H3 H4 H5 H6).
Defined.

(** On every engine a frame of no duration on a segment of no length
    leaves NaN in [progress]; the walker stays on the segment for good, and
    the figure is put on a NaN point. *)
Lemma zero_length_segment_stalls M :
  let w := after M (started stutter ++ Update clock 0 :: frames 3 clock 1) in
  currentPathIndex w = 0%nat
  /\ is_nan (progress w) = true
  /\ is_nan (THREE.x (position (object w))) = true.
Proof. cbv zeta. repeat split; vm_compute; reflexivity. Qed.

(** Against C7 as the specification words it: in a frame of no duration
    the segment of no length is not crossed. *)
Lemma zero_length_segment_not_always_crossed :
  ~ (forall M : Math,
       exists w' out,
         performAll M (started stutter ++ [Update clock 0]) new
         = Returned tt w' out
         /\ currentPathIndex w' = 1%nat).
Proof.
  intros H. destruct (H coarse) as (w' & out & E & Hidx).
  vm_compute in E. inversion E; subst w'. discriminate Hidx.
Qed.

(** *** Rewinding *)

(** C8 (as the code has it).  With a path set, [resetPosition] returns
    without an event, puts the index and the progress back to 0 and the
    figure on the first waypoint, turns it along the first segment when that
    segment has a direction (and leaves the yaw alone otherwise), puts the
    body in the idle pose, and does not touch [isWalking]: a walker at rest
    stays at rest, a walking one goes on walking from the start. *)
Theorem resetPosition_rewinds M now w first rest :
  path w = first :: rest ->
  exists w',
    resetPosition M now w = Returned tt w' []
    /\ currentPathIndex w' = 0%nat
    /\ progress w' = 0
    /\ position (object w') = first
    /\ rotation_y (object w')
       = match rest with
         | next :: _ =>
             match yawToward M first next with
             | Some a => a
             | None => rotation_y (object w)
             end
         | [] => rotation_y (object w)
         end
    /\ bodyParts w' = idlePose M now
    /\ path w' = path w
    /\ isWalking w' = isWalking w.
Proof.
  intros Ep. rewrite resetPosition_unfold, Ep.
  eexists. split; [reflexivity|].
  unfold turned.
  cbn [path currentPathIndex set_position set_progress set_currentPathIndex].
  rewrite Ep. cbn [nth_error Nat.add].
  destruct rest as [|next rest'].
  - cbn. repeat split; auto.
  - cbn [nth_error]. destruct (yawToward M first next) as [a|];
      cbn; repeat split; auto.
Qed.

Lemma resetPosition_rewinds_witness :
  path strolling = pt 0 0 0 :: [pt 10 0 0; pt 10 0 10]
  /\ exists w',
       resetPosition coarse (clock + 2000) strolling = Returned tt w' []
       /\ currentPathIndex w' = 0%nat
       /\ progress w' = 0
       /\ position (object w') = pt 0 0 0
       /\ rotation_y (object w')
          = match yawToward coarse (pt 0 0 0) (pt 10 0 0) with
            | Some a => a
            | None => rotation_y (object strolling)
            end
       /\ bodyParts w' = idlePose coarse (clock + 2000)
       /\ path w' = path strolling
       /\ isWalking w' = isWalking strolling.
Proof.
  assert (Ep : path strolling = pt 0 0 0 :: [pt 10 0 0; pt 10 0 10])
    by (vm_compute; reflexivity).
  split; [exact Ep|].
  exact (resetPosition_rewinds coarse (clock + 2000) _ _ _ Ep).
Defined.

(** Against C8 as the specification words it: a walker reset in the middle
    of a walk is still walking after the call. *)
Lemma resetPosition_leaves_walker_walking :
  ~ (forall M : Math,
       exists w' out,
         resetPosition M (clock + 2000)
           (after M (started straight ++ frames 2 clock 1))
         = Returned tt w' out
         /\ motionState w' = Idle).
Proof.
  intros H. destruct (H coarse) as (w' & out & E & Hidle).
  assert (Hw : isWalking w' = true).
  { vm_compute in E. inversion E; subst w'. reflexivity. }
  unfold motionState in Hidle. rewrite Hw in Hidle. discriminate.
Qed.

(** *** The pose *)

Lemma advancing_spec w :
  advancing w = true <->
  isWalking w = true
  /\ (currentPathIndex w + 1 < List.length (path w))%nat.
Proof.
  unfold advancing. rewrite !andb_true_iff, Nat.leb_le, Nat.ltb_lt.
  split; [intros [[H1 H2] H3]; auto|intros [H1 H3]; repeat split; auto; lia].
Qed.

Lemma frame_pose M now deltaTime w w' out :
  frame M now deltaTime w w' out ->
  bodyParts w'
  = if advancing w
    then walkingPose M now (walkSpeed w) deltaTime
    else idlePose M now.
Proof.
  intros F.
  destruct (advancing w) eqn:Ea.
  - apply advancing_spec in Ea. destruct Ea as [Hw Hin].
    destruct F as [[Hrest|Hshort]|_ _ Hlast| |]; try reflexivity;
      [congruence|lia|lia].
  - assert (Hn : ~ (isWalking w = true
                    /\ (currentPathIndex w + 1 < List.length (path w))%nat)).
    { intros H. apply advancing_spec in H. congruence. }
    destruct F as [| |a Hw Hin _|c n Hw Ec En _]; try reflexivity.
    + exfalso. apply Hn. split; [exact Hw|exact Hin].
    + exfalso. apply Hn. split; [exact Hw|].
      apply nth_error_Some. rewrite En. discriminate.
Qed.

(** C9 (as the code has it).  The pose [update] leaves is a function of
    four things: whether the walker is on a segment and walking, the walk
    speed, the frame's [deltaTime], and the reading of the wall clock
    ([Date.now()]) taken during the call.  Walking, the limbs follow
    [sin (now * 0.005 * walkSpeed * deltaTime * 60)]; otherwise the body
    bobs with [sin (now * 0.001)] and the limbs are at 0.  Nothing else of
    the state, and no elapsed time added up over the frames, enters it. *)
Theorem pose_after_update M now deltaTime w :
  exists w' out,
    update M now deltaTime w = Returned tt w' out
    /\ bodyParts w'
       = (if advancing w
          then walkingPose M now (walkSpeed w) deltaTime
          else idlePose M now)
    /\ walkingPose M now (walkSpeed w) deltaTime
       = (let c := sin M (now * 0.005 * walkSpeed w * deltaTime * 60) in
          mkBodyParts (0.3 + PrimFloat.abs c * 0.02)
                      (0.75 + PrimFloat.abs c * 0.02)
                      (c * 0.5) (- c * 0.5) (c * 0.3) (- c * 0.3))
    /\ idlePose M now
       = (let b := sin M (now * 0.001) * 0.01 in
          mkBodyParts (0.3 + b) (0.75 + b) 0 0 0 0).
Proof.
  destruct (update_frame M now deltaTime w) as (w' & out & E & F).
  exists w', out. split; [exact E|].
  split; [exact (frame_pose M now deltaTime w w' out F)|].
  split; reflexivity.
Qed.

(** On every engine, the first frame of a walk on [straight] swings the
    left arm to half the sine of a number read off the clock. *)
Lemma left_arm_follows_the_clock M now :
  leftArm_x (bodyParts (after M (started straight ++ [Update now 1])))
  = sin M (now * 0.005 * 2 * 1 * 60) * 0.5.
Proof. vm_compute. reflexivity. Qed.

(** The same on every engine that returns what ECMAScript fixes
    ([sin(+0) = +0], [sin(+Infinity) = NaN]), at the price of extreme
    inputs: with a walk speed of 1e300 the frame at clock reading 0 leaves
    the left arm at 0, the same frame at the reading [clock] leaves it at
    NaN. *)
Lemma pose_follows_the_clock_on_every_engine M :
  sin M 0 = 0 ->
  sin M infinity = nan ->
  let run now :=
    after M (SetWalkSpeed 1e300 :: started straight ++ [Update now 1]) in
  leftArm_x (bodyParts (run 0)) = 0
  /\ leftArm_x (bodyParts (run clock)) = nan.
Proof.
  intros Hzero Hinf. cbv zeta. split.
  - assert (E : leftArm_x
                  (bodyParts
                     (after M
                        (SetWalkSpeed 1e300
                         :: started straight ++ [Update 0 1])))
                = sin M 0 * 0.5) by (vm_compute; reflexivity).
    rewrite E, Hzero. reflexivity.
  - assert (E : leftArm_x
                  (bodyParts
                     (after M
                        (SetWalkSpeed 1e300
                         :: started straight ++ [Update clock 1])))
                = sin M infinity * 0.5) by (vm_compute; reflexivity).
    rewrite E, Hinf. reflexivity.
Qed.

(** Against C9 as the specification words it: two runs of the same calls
    with the same [deltaTime], a millisecond apart on the wall clock, need
    not leave the same pose. *)
Lemma pose_depends_on_the_wall_clock :
  ~ (forall M : Math,
       bodyParts (after M (started straight ++ [Update clock 1]))
       = bodyParts (after M (started straight ++ [Update (clock + 1) 1]))).
Proof.
  intros H. specialize (H coarse).
  apply (f_equal (fun b => PrimFloat.eqb (leftArm_x b)
                   (leftArm_x
                      (bodyParts
                         (after coarse
                            (started straight ++ [Update clock 1])))))) in H.
  vm_compute in H. discriminate H.
Qed.

(** *** One boundary a frame *)

(** C10. One [update] moves the index by at most one waypoint, however large
    [deltaTime] is.  The index moves exactly when the walker is on a segment
    and the raised progress is at least 1; the call then resets [progress]
    to 0, whatever the raised value was, and leaves the figure where the
    previous frame put it. *)
Theorem update_crosses_one_boundary M now deltaTime w :
  exists w' out,
    update M now deltaTime w = Returned tt w' out
    /\ (currentPathIndex w' = currentPathIndex w
        \/ currentPathIndex w' = currentPathIndex w + 1)%nat
    /\ ((currentPathIndex w' = currentPathIndex w + 1)%nat <->
        advancing w && (1 <=? raisedProgress w deltaTime) = true)
    /\ ((currentPathIndex w' = currentPathIndex w + 1)%nat ->
        progress w' = 0
        /\ position (object w') = position (object w)).
Proof.
  destruct (update_frame M now deltaTime w) as (w' & out & E & F).
  exists w', out. split; [exact E|].
  rewrite andb_true_iff, advancing_spec.
  destruct F as [[Hrest|Hshort]|Hw Hlen Hlast|a Hw Hin Hup|c n Hw Ec En Hup];
    cbn [currentPathIndex progress position object set_bodyParts
         set_isWalking set_rotation_y set_progress set_currentPathIndex
         set_position].
  - split; [left; reflexivity|]. split; [|lia].
    split; [lia|]. intros [[Hw _] _]. congruence.
  - split; [left; reflexivity|]. split; [|lia].
    split; [lia|]. intros [[_ Hin] _]. lia.
  - split; [left; reflexivity|]. split; [|lia].
    split; [lia|]. intros [[_ Hin] _]. lia.
  - split; [right; reflexivity|]. split; [|split; reflexivity].
    split; [intros _; repeat split; assumption|reflexivity].
  - split; [left; reflexivity|]. split; [|lia].
    split; [lia|]. intros [_ Hup']. congruence.
Qed.

End Facts.

(* ================================================================== *)
(** ** Some arithmetic of JavaScript numbers *)

Module NumberFacts.
Import Magnitude.
Local Open Scope float_scope.

Lemma binary_round_aux_sign p em s s' mx ex lx :
  same_size (binary_round_aux p em s mx ex lx)
            (binary_round_aux p em s' mx ex lx).
Proof.
  unfold binary_round_aux.
  destruct (shr_fexp p em mx ex lx) as [mrs' e'].
  destruct (shr_fexp p em _ e' loc_Exact) as [mrs'' e''].
  destruct (shr_m mrs''); cbn; auto.
  destruct (e'' <=? em - p)%Z; cbn; auto.
Qed.

Lemma binary_round_sign p em s s' m e :
  same_size (binary_round p em s m e) (binary_round p em s' m e).
Proof.
  unfold binary_round. destruct (shl_align _ _ _) as [mz ez].
  apply binary_round_aux_sign.
Qed.

Lemma binary_normalize_opp p em m e :
  same_size (binary_normalize p em m e false)
            (binary_normalize p em (- m) e false).
Proof.
  destruct m; cbn; auto; apply binary_round_sign.
Qed.

Lemma SFsub_swap p em x y : same_size (SFsub p em x y) (SFsub p em y x).
Proof.
  destruct x as [sx|sx| |sx mx ex], y as [sy|sy| |sy my ey]; cbn;
    try (destruct sx, sy; cbn; auto; fail); auto.
  rewrite (Z.min_comm ey ex).
  replace (cond_Zopp sy (Z.pos (fst (shl_align my ey (Z.min ex ey))))
           - cond_Zopp sx (Z.pos (fst (shl_align mx ex (Z.min ex ey)))))%Z
    with (- (cond_Zopp sx (Z.pos (fst (shl_align mx ex (Z.min ex ey))))
             - cond_Zopp sy (Z.pos (fst (shl_align my ey (Z.min ex ey))))))%Z
    by lia.
  apply binary_normalize_opp.
Qed.

Lemma SFmul_square p em x y :
  same_size x y -> SFmul p em x x = SFmul p em y y.
Proof.
  destruct x as [sx|sx| |sx mx ex], y as [sy|sy| |sy my ey]; cbn;
    try contradiction; intros H.
  - destruct sx, sy; reflexivity.
  - destruct sx, sy; reflexivity.
  - reflexivity.
  - destruct H as [-> ->]. destruct sx, sy; reflexivity.
Qed.

(** The square of a difference does not depend on the order of the two
    numbers, rounding included. *)
Lemma square_of_difference a b : (a - b) * (a - b) = (b - a) * (b - a).
Proof.
  apply Prim2SF_inj.
  rewrite !FloatAxioms.mul_spec, !FloatAxioms.sub_spec.
  apply SFmul_square, SFsub_swap.
Qed.

Lemma ltb_leb a b : (a <? b) = true -> (a <=? b) = true.
Proof.
  rewrite FloatAxioms.ltb_spec, FloatAxioms.leb_spec.
  unfold SFltb, SFleb.
  destruct (SFcompare (Prim2SF a) (Prim2SF b)) as [[| |]|];
    intros H; try discriminate H; reflexivity.
Qed.

Lemma SFcompare_antisym x y :
  SFcompare y x = option_map CompOpp (SFcompare x y).
Proof.
  destruct x as [sx|sx| |sx mx ex], y as [sy|sy| |sy my ey]; cbn;
    try reflexivity;
    try (destruct sx; reflexivity); try (destruct sy; reflexivity);
    try (destruct sx, sy; reflexivity).
  f_equal.
  destruct sx, sy; try reflexivity.
  - rewrite (Z.compare_antisym ex ey).
    destruct (ex ?= ey)%Z; cbn; try reflexivity.
    rewrite (Pos.compare_cont_antisym mx my Eq). cbn.
    destruct (Pos.compare_cont Eq my mx); reflexivity.
  - rewrite (Z.compare_antisym ex ey).
    destruct (ex ?= ey)%Z; cbn; try reflexivity.
    rewrite (Pos.compare_cont_antisym mx my Eq). reflexivity.
Qed.

Lemma leb_not_ltb a b : (a <=? b) = true -> (b <? a) = false.
Proof.
  rewrite FloatAxioms.ltb_spec, FloatAxioms.leb_spec.
  unfold SFltb, SFleb.
  rewrite (SFcompare_antisym (Prim2SF a) (Prim2SF b)).
  destruct (SFcompare (Prim2SF a) (Prim2SF b)) as [[| |]|]; cbn;
    congruence.
Qed.

Lemma SFcompare_refl x : x <> S754_nan -> SFcompare x x = Some Eq.
Proof.
  destruct x as [s|s| |s m e]; intros H; try congruence; unfold SFcompare;
    destruct s; rewrite ?Z.compare_refl, ?Pos.compare_cont_refl;
    reflexivity.
Qed.

Lemma SFcompare_not_nan x y c :
  SFcompare x y = Some c -> x <> S754_nan /\ y <> S754_nan.
Proof. destruct x, y; cbn; try discriminate; split; congruence. Qed.

Lemma is_nan_spec a : Prim2SF a <> S754_nan -> is_nan a = false.
Proof.
  intros H. unfold is_nan. rewrite FloatAxioms.eqb_spec. unfold SFeqb.
  rewrite (SFcompare_refl _ H). reflexivity.
Qed.

Lemma leb_not_nan a b : (a <=? b) = true -> is_nan b = false.
Proof.
  rewrite FloatAxioms.leb_spec. unfold SFleb. intros H.
  destruct (SFcompare (Prim2SF a) (Prim2SF b)) as [c|] eqn:E;
    [|discriminate H].
  apply is_nan_spec. exact (proj2 (SFcompare_not_nan _ _ _ E)).
Qed.

Lemma ltb_not_nan a b : (a <? b) = true -> is_nan a = false.
Proof.
  rewrite FloatAxioms.ltb_spec. unfold SFltb. intros H.
  destruct (SFcompare (Prim2SF a) (Prim2SF b)) as [c|] eqn:E;
    [|discriminate H].
  apply is_nan_spec. exact (proj1 (SFcompare_not_nan _ _ _ E)).
Qed.

Lemma SFcompare_positive_eq m1 e1 x :
  SFcompare (S754_finite false m1 e1) x = Some Eq ->
  x = S754_finite false m1 e1.
Proof.
  unfold SFcompare.
  destruct x as [s|s| |s m e]; try discriminate;
    try (destruct s; discriminate).
  destruct s; [discriminate|].
  destruct (e1 ?= e)%Z eqn:Ee; try discriminate.
  apply Z.compare_eq in Ee. subst e.
  intros H. injection H as H. apply Pos.compare_eq in H. subst m.
  reflexivity.
Qed.

Lemma compare_one a :
  SFcompare (Prim2SF 1) (Prim2SF a) = Some Eq -> a = 1.
Proof.
  intros H. apply Prim2SF_inj.
  change (Prim2SF 1) with (S754_finite false 4503599627370496 (-52)) in *.
  exact (SFcompare_positive_eq _ _ _ H).
Qed.

End NumberFacts.

(* ================================================================== *)
(** ** More on the walker *)

Module WalkerFacts.
Import JS Walker Driver Scenes Facts NumberFacts.
Local Open Scope float_scope.

(** *** Starting, pausing and resuming *)

(** Without a path of two waypoints, [startWalking] and [resumeWalking]
    each warn on the console and leave every field as it was. *)
Theorem start_and_resume_need_a_path M w :
  (List.length (path w) < 2)%nat ->
  startWalking M w
  = Returned tt w [Warn "Cannot start walking: no valid path set"]
  /\ resumeWalking w
     = Returned tt w [Warn "Cannot resume walking: no valid path set"].
Proof.
  intros H. apply Nat.ltb_lt in H. split.
  - rewrite startWalking_unfold, H. reflexivity.
  - unfold resumeWalking. rewrite bind_this, H. reflexivity.
Qed.

Lemma start_and_resume_need_a_path_witness :
  (List.length (path new) < 2)%nat
  /\ startWalking coarse new
     = Returned tt new [Warn "Cannot start walking: no valid path set"]
  /\ resumeWalking new
     = Returned tt new [Warn "Cannot resume walking: no valid path set"].
Proof.
  assert (H : (List.length (path new) < 2)%nat) by (cbn; lia).
  split; [exact H|].
  exact (start_and_resume_need_a_path coarse new H).
Defined.

Lemma resumeWalking_with_path w :
  (2 <= List.length (path w))%nat ->
  resumeWalking w = Returned tt (set_isWalking true w) [].
Proof.
  intros H. unfold resumeWalking. rewrite bind_this.
  replace (List.length (path w) <? 2)%nat with false
    by (symmetry; apply Nat.ltb_ge; exact H).
  reflexivity.
Qed.

(** Once the walker has left the start (the index is not 0, or the progress
    is not 0), [startWalking] is [resumeWalking]: it raises [isWalking],
    touches nothing else and reports nothing. *)
Theorem start_resumes_after_the_start M w :
  (2 <= List.length (path w))%nat ->
  (currentPathIndex w =? 0)%nat && (progress w =? 0) = false ->
  startWalking M w = resumeWalking w
  /\ startWalking M w = Returned tt (set_isWalking true w) [].
Proof.
  intros Hlen Hstart.
  rewrite (resumeWalking_with_path w Hlen), startWalking_unfold.
  replace (List.length (path w) <? 2)%nat with false
    by (symmetry; apply Nat.ltb_ge; exact Hlen).
  rewrite Hstart. split; reflexivity.
Qed.

Lemma start_resumes_after_the_start_witness :
  (2 <= List.length (path strolling))%nat
  /\ (currentPathIndex strolling =? 0)%nat && (progress strolling =? 0)
     = false
  /\ startWalking coarse strolling = resumeWalking strolling
  /\ startWalking coarse strolling
     = Returned tt (set_isWalking true strolling) [].
Proof.
  assert (H1 : (2 <= List.length (path strolling))%nat)
    by (vm_compute; lia).
  assert (H2 : (currentPathIndex strolling =? 0)%nat
               && (progress strolling =? 0) = false)
    by (vm_compute; reflexivity).
  split; [exact H1|]. split; [exact H2|].
  exact (start_resumes_after_the_start coarse strolling H1 H2).
Defined.

(** At the start of a path, [startWalking] raises [isWalking], puts the
    figure on the first waypoint, turns it along the first segment when
    that has a direction, and reports progress 0 of N when a callback is
    installed; the index and the progress stay at 0. *)
Theorem start_at_the_start M w first next rest :
  path w = first :: next :: rest ->
  currentPathIndex w = 0%nat ->
  (progress w =? 0) = true ->
  exists w',
    startWalking M w
    = Returned tt w'
        (if onProgress w
         then [Progress 0 (List.length (path w))] else [])
    /\ isWalking w' = true
    /\ position (object w') = first
    /\ rotation_y (object w')
       = match yawToward M first next with
         | Some a => a
         | None => rotation_y (object w)
         end
    /\ currentPathIndex w' = 0%nat
    /\ progress w' = progress w
    /\ path w' = path w
    /\ visible (object w') = visible (object w).
Proof.
  intros Ep Hidx Hp.
  rewrite startWalking_unfold, Ep, Hidx, Hp.
  cbn [List.length Nat.ltb Nat.leb Nat.eqb andb].
  eexists. split; [reflexivity|].
  unfold turned.
  cbn [path currentPathIndex set_position set_isWalking].
  rewrite Ep, Hidx. cbn [nth_error Nat.add].
  destruct (yawToward M first next) as [a|]; cbn; repeat split; auto.
Qed.

Lemma start_at_the_start_witness :
  path waiting = pt 0 0 0 :: pt 10 0 0 :: [pt 10 0 10]
  /\ currentPathIndex waiting = 0%nat
  /\ (progress waiting =? 0) = true
  /\ exists w',
       startWalking coarse waiting
       = Returned tt w'
           (if onProgress waiting
            then [Progress 0 (List.length (path waiting))] else [])
       /\ isWalking w' = true
       /\ position (object w') = pt 0 0 0
       /\ rotation_y (object w')
          = match yawToward coarse (pt 0 0 0) (pt 10 0 0) with
            | Some a => a
            | None => rotation_y (object waiting)
            end
       /\ currentPathIndex w' = 0%nat
       /\ progress w' = progress waiting
       /\ path w' = path waiting
       /\ visible (object w') = visible (object waiting).
Proof.
  assert (H1 : path waiting = pt 0 0 0 :: pt 10 0 0 :: [pt 10 0 10])
    by (vm_compute; reflexivity).
  assert (H2 : currentPathIndex waiting = 0%nat) by (vm_compute; reflexivity).
  assert (H3 : (progress waiting =? 0) = true) by (vm_compute; reflexivity).
  split; [exact H1|]. split; [exact H2|]. split; [exact H3|].
  exact (start_at_the_start coarse _ _ _ _ H1 H2 H3).
Defined.

(** Frames on a walker at rest change the pose and nothing else. *)
Lemma frames_at_rest M cs :
  only_updates cs = true ->
  forall w, isWalking w = false ->
  exists b, performAll M cs w = Returned tt (set_bodyParts b w) [].
Proof.
  induction cs as [|c cs IH]; intros Hcs w Hw.
  - exists (bodyParts w). destruct w; reflexivity.
  - cbn in Hcs. apply andb_true_iff in Hcs. destruct Hcs as [Hc Hcs].
    destruct c; try discriminate Hc.
    cbn [performAll perform].
    rewrite (bind_returned _ _ _ _ _ (update_at_rest M now deltaTime w Hw)).
    destruct (IH Hcs (set_bodyParts (idlePose M now) w) Hw) as [b E].
    exists b. exact E.
Qed.

Lemma performAll_app M cs1 cs2 w w1 out1 :
  performAll M cs1 w = Returned tt w1 out1 ->
  performAll M (cs1 ++ cs2) w
  = match performAll M cs2 w1 with
    | Returned a w2 out2 => Returned a w2 (out1 ++ out2)
    | Thrown => Thrown
    end.
Proof.
  revert w w1 out1. induction cs1 as [|c cs1 IH]; intros w w1 out1 E.
  - inversion E; subst. cbn [app performAll].
    destruct (performAll M cs2 w1); reflexivity.
  - cbn [app performAll] in *. unfold bind in *.
    destruct (perform M c w) as [[] wa outa|]; [|discriminate E].
    destruct (performAll M cs1 wa) as [[] wb outb|] eqn:Eb; [|discriminate E].
    inversion E; subst.
    rewrite (IH wa w1 outb Eb).
    destruct (performAll M cs2 w1); [|reflexivity].
    rewrite app_assoc. reflexivity.
Qed.

(** A pause loses nothing but the pose: [stopWalking], any number of
    frames, then [resumeWalking] bring a walking walker back to the fields
    it had, the pose of the last frame apart, and nothing is reported on
    the way. *)
Theorem pause_then_resume M cs w :
  isWalking w = true ->
  (2 <= List.length (path w))%nat ->
  only_updates cs = true ->
  exists b,
    performAll M (StopWalking :: cs ++ [ResumeWalking]) w
    = Returned tt (set_bodyParts b w) [].
Proof.
  intros Hw Hlen Hcs.
  destruct (frames_at_rest M cs Hcs (set_isWalking false w) eq_refl)
    as [b E].
  exists b.
  change (performAll M (StopWalking :: cs ++ [ResumeWalking]) w)
    with (bind stopWalking
            (fun _ => performAll M (cs ++ [ResumeWalking])) w).
  rewrite (bind_returned stopWalking _ w tt (set_isWalking false w))
    by reflexivity.
  rewrite (performAll_app M cs [ResumeWalking] _ _ _ E).
  cbn [performAll perform]. unfold bind.
  rewrite resumeWalking_with_path by exact Hlen.
  destruct w as [o bp p i pr iw ws rs oc op]. cbn in Hw. subst iw.
  reflexivity.
Qed.

Lemma pause_then_resume_witness :
  isWalking strolling = true
  /\ (2 <= List.length (path strolling))%nat
  /\ only_updates (frames 3 clock 1) = true
  /\ exists b,
       performAll coarse
         (StopWalking :: frames 3 clock 1 ++ [ResumeWalking]) strolling
       = Returned tt (set_bodyParts b strolling) [].
Proof.
  assert (H1 : isWalking strolling = true) by (vm_compute; reflexivity).
  assert (H2 : (2 <= List.length (path strolling))%nat)
    by (vm_compute; lia).
  assert (H3 : only_updates (frames 3 clock 1) = true) by reflexivity.
  split; [exact H1|]. split; [exact H2|]. split; [exact H3|].
  exact (pause_then_resume coarse (frames 3 clock 1) strolling H1 H2 H3).
Defined.

(** [hide] stops the walker as well as hiding it, and [show] does not
    start it again: after [hide], any number of frames and [show], the
    figure is visible and at rest where it was hidden, and nothing has been
    reported. *)
Theorem hide_then_show M cs w :
  only_updates cs = true ->
  exists b,
    performAll M (Hide :: cs ++ [Show]) w
    = Returned tt
        (set_bodyParts b (set_visible true (set_isWalking false w))) [].
Proof.
  intros Hcs.
  destruct (frames_at_rest M cs Hcs
              (set_isWalking false (set_visible false w)) eq_refl)
    as [b E].
  exists b.
  change (performAll M (Hide :: cs ++ [Show]) w)
    with (bind hide (fun _ => performAll M (cs ++ [Show])) w).
  rewrite (bind_returned hide _ w tt
             (set_isWalking false (set_visible false w)))
    by reflexivity.
  rewrite (performAll_app M cs [Show] _ _ _ E).
  reflexivity.
Qed.

Lemma hide_then_show_witness :
  only_updates (frames 2 clock 1) = true
  /\ exists b,
       performAll coarse (Hide :: frames 2 clock 1 ++ [Show]) strolling
       = Returned tt
           (set_bodyParts b
              (set_visible true (set_isWalking false strolling))) [].
Proof.
  assert (H : only_updates (frames 2 clock 1) = true) by reflexivity.
  split; [exact H|].
  exact (hide_then_show coarse (frames 2 clock 1) strolling H).
Defined.

(** Starting a completed walk again does not restart it: the walker is
    past the start, so [startWalking] only raises [isWalking], and the next
    frame finds the index on the last waypoint, reports completion once
    more and moves nothing.  (Only [resetPosition] and [setPath] rewind.) *)
Theorem start_after_completion M now deltaTime w :
  isWalking w = false ->
  (2 <= List.length (path w))%nat ->
  currentPathIndex w = (List.length (path w) - 1)%nat ->
  performAll M [StartWalking; Update now deltaTime] w
  = Returned tt (set_bodyParts (idlePose M now) w)
      (if onComplete w then [Complete] else []).
Proof.
  intros Hw Hlen Hidx.
  assert (Hstart : (currentPathIndex w =? 0)%nat && (progress w =? 0)
                   = false).
  { replace (currentPathIndex w =? 0)%nat with false; [reflexivity|].
    symmetry. apply Nat.eqb_neq. lia. }
  cbn [performAll perform].
  assert (E1 : startWalking M w = Returned tt (set_isWalking true w) []).
  { rewrite startWalking_unfold, Hstart.
    replace (List.length (path w) <? 2)%nat with false
      by (symmetry; apply Nat.ltb_ge; exact Hlen).
    reflexivity. }
  rewrite (bind_returned _ _ _ _ _ E1).
  unfold bind. rewrite update_unfold.
  cbn [isWalking path currentPathIndex onComplete set_isWalking negb orb].
  replace (List.length (path w) <? 2)%nat with false
    by (symmetry; apply Nat.ltb_ge; exact Hlen).
  replace (List.length (path w) - 1 <=? currentPathIndex w)%nat with true
    by (symmetry; apply Nat.leb_le; lia).
  destruct w as [o bp p i pr iw ws rs oc op]. cbn in Hw. subst iw.
  cbn. destruct oc; reflexivity.
Qed.

Lemma start_after_completion_witness :
  isWalking arrived = false
  /\ (2 <= List.length (path arrived))%nat
  /\ currentPathIndex arrived = (List.length (path arrived) - 1)%nat
  /\ performAll coarse [StartWalking; Update clock 1] arrived
     = Returned tt (set_bodyParts (idlePose coarse clock) arrived)
         (if onComplete arrived then [Complete] else []).
Proof.
  assert (H1 : isWalking arrived = false) by (vm_compute; reflexivity).
  assert (H2 : (2 <= List.length (path arrived))%nat) by (vm_compute; lia).
  assert (H3 : currentPathIndex arrived
               = (List.length (path arrived) - 1)%nat)
    by (vm_compute; reflexivity).
  split; [exact H1|]. split; [exact H2|]. split; [exact H3|].
  exact (start_after_completion coarse clock 1 arrived H1 H2 H3).
Defined.

(** *** A path that is accepted *)

(** [setPath] with two waypoints or more stops a walk in progress and
    rewinds: the path is stored, the index and the progress are 0, the
    figure is shown on the first waypoint, turned along the first segment
    when that has a direction; the speed, the callbacks and the pose are
    kept, and nothing is reported. *)
Theorem setPath_accepts M w first next rest :
  exists w',
    setPath M (Some (first :: next :: rest)) w = Returned tt w' []
    /\ path w' = first :: next :: rest
    /\ currentPathIndex w' = 0%nat
    /\ progress w' = 0
    /\ isWalking w' = false
    /\ visible (object w') = true
    /\ position (object w') = first
    /\ rotation_y (object w')
       = match yawToward M first next with
         | Some a => a
         | None => rotation_y (object w)
         end
    /\ walkSpeed w' = walkSpeed w
    /\ onComplete w' = onComplete w
    /\ onProgress w' = onProgress w
    /\ bodyParts w' = bodyParts w.
Proof.
  rewrite setPath_unfold. cbn [List.length Nat.ltb Nat.leb].
  eexists. split; [reflexivity|].
  unfold turned. cbn [path currentPathIndex set_visible set_position
    set_isWalking set_progress set_currentPathIndex set_path nth_error
    Nat.add].
  destruct (yawToward M first next) as [a|]; cbn; repeat split.
Qed.

(** *** What holds in every state, and for every call *)


(** A property of the new walker that every call keeps holds in every
    state the walker gets into. *)
Lemma reachable_invariant M (P : WalkingObject -> Prop) :
  P new ->
  (forall c w w' out, P w -> perform M c w = Returned tt w' out -> P w') ->
  forall w, reachable M w -> P w.
Proof.
  intros Hnew Hstep w (cs & out & E).
  revert E. generalize new Hnew. clear Hnew. revert w out.
  induction cs as [|c cs IH]; intros w out w0 H0 E.
  - inversion E; subst. exact H0.
  - cbn [performAll] in E. unfold bind in E.
    destruct (perform M c w0) as [[] w1 out1|] eqn:E1; [|discriminate E].
    destruct (performAll M cs w1) as [[] w2 out2|] eqn:E2; [|discriminate E].
    inversion E; subst.
    exact (IH w out2 w1 (Hstep c w0 w1 out1 H0 E1) E2).
Qed.

Lemma frame_progress M now deltaTime w w' out :
  frame M now deltaTime w w' out ->
  (1 <=? progress w) = false -> (1 <=? progress w') = false.
Proof.
  intros F H. destruct F; cbn; auto.
Qed.

Lemma perform_progress M c w w' out :
  perform M c w = Returned tt w' out ->
  (1 <=? progress w) = false -> (1 <=? progress w') = false.
Proof.
  intros E H. destruct c; cbn [perform] in E.
  - rewrite setPath_unfold in E. destruct worldPath as [l|].
    2:{ inversion E; subst; exact H. }
    destruct (List.length l <? 2)%nat.
    { inversion E; subst; exact H. }
    destruct l as [|first rest]; [discriminate E|].
    forget_turn_in M E. inversion E; subst. reflexivity.
  - rewrite startWalking_unfold in E.
    destruct (List.length (path w) <? 2)%nat.
    { inversion E; subst; exact H. }
    destruct ((currentPathIndex w =? 0)%nat && (progress w =? 0)).
    2:{ inversion E; subst; exact H. }
    destruct (path w) as [|first rest]; [discriminate E|].
    forget_turn_in M E. inversion E; subst. exact H.
  - unfold resumeWalking in E. rewrite bind_this in E.
    destruct (List.length (path w) <? 2)%nat; inversion E; subst; exact H.
  - inversion E; subst; exact H.
  - inversion E; subst; exact H.
  - rewrite resetPosition_unfold in E.
    destruct (path w) as [|first rest].
    { inversion E; subst; exact H. }
    forget_turn_in M E. inversion E; subst. reflexivity.
  - inversion E; subst; exact H.
  - inversion E; subst; exact H.
  - destruct (update_frame M now deltaTime w) as (w1 & out1 & E1 & F).
    rewrite E in E1. inversion E1; subst.
    exact (frame_progress M now deltaTime w w1 out1 F H).
  - inversion E; subst; exact H.
  - inversion E; subst; exact H.
  - inversion E; subst; exact H.
Qed.

(** In every state the walker gets into, [progress] is not 1 or more: a
    frame that raises it that far resets it to 0 in the same call.  (The
    test is false for NaN too, which a frame can leave in [progress].) *)
Theorem progress_stays_below_one M w :
  reachable M w -> (1 <=? progress w) = false.
Proof.
  apply (reachable_invariant M (fun w => (1 <=? progress w) = false)).
  - reflexivity.
  - intros c w0 w' out H E. exact (perform_progress M c w0 w' out E H).
Qed.

Lemma progress_stays_below_one_witness :
  reachable coarse strolling /\ (1 <=? progress strolling) = false.
Proof.
  assert (Hr : reachable coarse strolling).
  { exists (started corner ++ frames 2 clock 1). eexists.
    vm_compute. reflexivity. }
  split; [exact Hr|].
  exact (progress_stays_below_one coarse strolling Hr).
Defined.

(** Every progress report [(i, n)], of whatever call, has for [n] the
    number of waypoints of the path, which is at least 2, and an index
    [i] below [n]: a fraction [i / (n - 1)] of it is never above 1. *)
Theorem progress_reports_are_in_range M c w w' out i n :
  perform M c w = Returned tt w' out ->
  In (Progress i n) out ->
  n = List.length (path w') /\ (2 <= n)%nat /\ (i < n)%nat.
Proof.
  intros E Hin.
  assert (Hwarn : forall m, In (Progress i n) [Warn m] -> False).
  { intros m [H|[]]. discriminate H. }
  destruct c; cbn [perform] in E.
  - rewrite setPath_unfold in E. destruct worldPath as [l|].
    2:{ inversion E; subst. destruct (Hwarn _ Hin). }
    destruct (List.length l <? 2)%nat.
    { inversion E; subst. destruct (Hwarn _ Hin). }
    destruct l as [|first rest]; [discriminate E|].
    inversion E; subst. destruct Hin.
  - rewrite startWalking_unfold in E.
    destruct (List.length (path w) <? 2)%nat eqn:Elen.
    { inversion E; subst. destruct (Hwarn _ Hin). }
    apply Nat.ltb_ge in Elen.
    destruct ((currentPathIndex w =? 0)%nat && (progress w =? 0)).
    2:{ inversion E; subst. destruct Hin. }
    destruct (path w) as [|first rest] eqn:Ep; [discriminate E|].
    forget_turn_in M E. inversion E; subst.
    destruct (onProgress w); [|destruct Hin].
    destruct Hin as [Hin|[]]. inversion Hin; subst.
    cbn [path set_rotation_y set_position set_isWalking].
    rewrite Ep. repeat split; [exact Elen|lia].
  - unfold resumeWalking in E. rewrite bind_this in E.
    destruct (List.length (path w) <? 2)%nat; inversion E; subst;
      [destruct (Hwarn _ Hin)|destruct Hin].
  - inversion E; subst. destruct Hin.
  - inversion E; subst. destruct Hin.
  - rewrite resetPosition_unfold in E.
    destruct (path w) as [|first rest]; inversion E; subst; destruct Hin.
  - inversion E; subst. destruct Hin.
  - inversion E; subst. destruct Hin.
  - destruct (update_frame M now deltaTime w) as (w1 & out1 & E1 & F).
    rewrite E in E1. inversion E1; subst w1 out1.
    destruct F as [ | | a Hw Hlt Hup | ].
    + destruct Hin.
    + destruct (onComplete w); [|destruct Hin].
      destruct Hin as [Hin|[]]. discriminate Hin.
    + destruct (onProgress w); [|destruct Hin].
      destruct Hin as [Hin|[]]. inversion Hin; subst.
      cbn. repeat split; lia.
    + destruct Hin.
  - inversion E; subst. destruct Hin.
  - inversion E; subst. destruct Hin.
  - inversion E; subst. destruct Hin.
Qed.

Lemma progress_reports_are_in_range_witness :
  perform coarse (Update (clock + 4000) 1)
    (after coarse (started straight ++ frames 4 clock 1))
  = Returned tt arriving [Progress 1 2]
  /\ In (Progress 1 2) [Progress 1 2]
  /\ 2%nat = List.length (path arriving) /\ (2 <= 2)%nat /\ (1 < 2)%nat.
Proof.
  assert (E : perform coarse (Update (clock + 4000) 1)
                (after coarse (started straight ++ frames 4 clock 1))
              = Returned tt arriving [Progress 1 2])
    by (vm_compute; reflexivity).
  assert (Hin : In (Progress 1 2) [Progress 1 2]) by (left; reflexivity).
  split; [exact E|]. split; [exact Hin|].
  exact (progress_reports_are_in_range coarse _ _ _ _ 1%nat 2%nat E Hin).
Defined.

(** Only [setWalkSpeed] changes the speed. *)
Lemma perform_walkSpeed M c w w' out :
  perform M c w = Returned tt w' out ->
  walkSpeed w' = walkSpeed w
  \/ exists speed, c = SetWalkSpeed speed
                   /\ walkSpeed w' = Math_max 0.1 speed.
Proof.
  intros E. destruct c; cbn [perform] in E.
  - left. rewrite setPath_unfold in E. destruct worldPath as [l|].
    2:{ inversion E; subst; reflexivity. }
    destruct (List.length l <? 2)%nat.
    { inversion E; subst; reflexivity. }
    destruct l as [|first rest]; [discriminate E|].
    forget_turn_in M E. inversion E; subst. reflexivity.
  - left. rewrite startWalking_unfold in E.
    destruct (List.length (path w) <? 2)%nat.
    { inversion E; subst; reflexivity. }
    destruct ((currentPathIndex w =? 0)%nat && (progress w =? 0)).
    2:{ inversion E; subst; reflexivity. }
    destruct (path w) as [|first rest]; [discriminate E|].
    forget_turn_in M E. inversion E; subst. reflexivity.
  - left. unfold resumeWalking in E. rewrite bind_this in E.
    destruct (List.length (path w) <? 2)%nat; inversion E; subst;
      reflexivity.
  - left. inversion E; subst; reflexivity.
  - left. inversion E; subst; reflexivity.
  - left. rewrite resetPosition_unfold in E.
    destruct (path w) as [|first rest].
    { inversion E; subst; reflexivity. }
    forget_turn_in M E. inversion E; subst. reflexivity.
  - left. inversion E; subst; reflexivity.
  - left. inversion E; subst; reflexivity.
  - left. destruct (update_frame M now deltaTime w) as (w1 & out1 & E1 & F).
    rewrite E in E1. inversion E1; subst.
    destruct F; reflexivity.
  - right. exists speed. inversion E; subst. split; reflexivity.
  - left. inversion E; subst; reflexivity.
  - left. inversion E; subst; reflexivity.
Qed.

Lemma Math_max_floor speed : (Math_max 0.1 speed <? 0.1) = false.
Proof.
  unfold Math_max. change (is_nan 0.1) with false. cbn [orb].
  destruct (is_nan speed); [reflexivity|].
  destruct (0.1 <? speed) eqn:E; [|reflexivity].
  apply leb_not_ltb, ltb_leb, E.
Qed.

(** In every state the walker gets into, the speed is not below 0.1: it
    starts at 2 and only [setWalkSpeed] changes it, to a number that is 0.1
    or more, or to NaN.  So the speed is never 0 and never negative, and a
    walk does not run backwards. *)
Theorem walk_speed_is_never_below_a_tenth M w :
  reachable M w -> (walkSpeed w <? 0.1) = false.
Proof.
  apply (reachable_invariant M (fun w => (walkSpeed w <? 0.1) = false)).
  - reflexivity.
  - intros c w0 w' out H E.
    destruct (perform_walkSpeed M c w0 w' out E) as [Hs|(speed & _ & Hs)];
      rewrite Hs; [exact H|apply Math_max_floor].
Qed.

Lemma walk_speed_is_never_below_a_tenth_witness :
  reachable coarse (after coarse [SetWalkSpeed (-3); Update clock 1])
  /\ (walkSpeed (after coarse [SetWalkSpeed (-3); Update clock 1]) <? 0.1)
     = false.
Proof.
  assert (Hr : reachable coarse
                 (after coarse [SetWalkSpeed (-3); Update clock 1])).
  { exists [SetWalkSpeed (-3); Update clock 1]. eexists.
    vm_compute. reflexivity. }
  split; [exact Hr|].
  exact (walk_speed_is_never_below_a_tenth coarse _ Hr).
Defined.

End WalkerFacts.

(* ================================================================== *)
(** ** The hook over the walker *)

Module HookFacts.
Import JS Walker Driver Scenes Facts NumberFacts.
Local Open Scope float_scope.

Lemma set_walkingObject_same h w :
  Hook.walkingObject h = Some w -> Hook.set_walkingObject (Some w) h = h.
Proof. destruct h; cbn; intros ->; reflexivity. Qed.

Lemma startWalking_short M w :
  (List.length (path w) < 2)%nat ->
  startWalking M w
  = Returned tt w [Warn "Cannot start walking: no valid path set"].
Proof.
  intros H. apply Nat.ltb_lt in H.
  rewrite startWalking_unfold, H. reflexivity.
Qed.

Lemma resumeWalking_short w :
  (List.length (path w) < 2)%nat ->
  resumeWalking w
  = Returned tt w [Warn "Cannot resume walking: no valid path set"].
Proof.
  intros H. apply Nat.ltb_lt in H.
  unfold resumeWalking. rewrite bind_this, H. reflexivity.
Qed.

(** *** What the hook announces *)

(** When the walker has no path, the hook's [startWalking] and
    [resumeWalking] still announce that the animation has started, after
    the walker's warning, and turn the camera following on; the walker is
    as it was. *)
Theorem hook_announces_a_start_without_a_path M h w :
  Hook.walkingObject h = Some w ->
  (List.length (path w) < 2)%nat ->
  Hook.startWalking M h
  = Some (Hook.set_cameraFollowEnabled true h,
          [Hook.ConsoleWarn "Cannot start walking: no valid path set";
           Hook.StatusChange
             "Walking animation started! Camera following enabled."])
  /\ Hook.resumeWalking h
     = Some (Hook.set_cameraFollowEnabled true h,
             [Hook.ConsoleWarn "Cannot resume walking: no valid path set";
              Hook.StatusChange
                "Walking animation resumed! Camera following enabled."]).
Proof.
  intros Hw Hlen. split.
  - unfold Hook.startWalking, Hook.on_walker.
    rewrite Hw, (startWalking_short M w Hlen).
    rewrite (set_walkingObject_same h w Hw). reflexivity.
  - unfold Hook.resumeWalking, Hook.on_walker.
    rewrite Hw, (resumeWalking_short w Hlen).
    rewrite (set_walkingObject_same h w Hw). reflexivity.
Qed.

Lemma hook_announces_a_start_without_a_path_witness :
  Hook.walkingObject mounted
  = Some (set_onProgress true (set_onComplete true new))
  /\ (List.length (path (set_onProgress true (set_onComplete true new)))
      < 2)%nat
  /\ Hook.startWalking coarse mounted
     = Some (Hook.set_cameraFollowEnabled true mounted,
             [Hook.ConsoleWarn "Cannot start walking: no valid path set";
              Hook.StatusChange
                "Walking animation started! Camera following enabled."])
  /\ Hook.resumeWalking mounted
     = Some (Hook.set_cameraFollowEnabled true mounted,
             [Hook.ConsoleWarn "Cannot resume walking: no valid path set";
              Hook.StatusChange
                "Walking animation resumed! Camera following enabled."]).
Proof.
  assert (H1 : Hook.walkingObject mounted
               = Some (set_onProgress true (set_onComplete true new)))
    by reflexivity.
  assert (H2 : (List.length
                  (path (set_onProgress true (set_onComplete true new)))
                < 2)%nat) by (cbn; lia).
  split; [exact H1|]. split; [exact H2|].
  exact (hook_announces_a_start_without_a_path coarse mounted _ H1 H2).
Defined.

(** When the walker turns a path down, the hook's [setPath] still
    announces that the path is set, after the walker's warning; the refs
    are as they were. *)
Theorem hook_announces_a_path_turned_down M worldPath h w :
  Hook.walkingObject h = Some w ->
  too_short worldPath ->
  Hook.setPath M worldPath h
  = Some (h,
          [Hook.ConsoleWarn "Invalid path provided to walking object";
           Hook.StatusChange
             "Walking path set. Use controls to start animation."]).
Proof.
  intros Hw Hshort.
  assert (E : setPath M worldPath w
              = Returned tt w
                  [Warn "Invalid path provided to walking object"]).
  { rewrite setPath_unfold. destruct worldPath as [l|]; [|reflexivity].
    cbn in Hshort. apply Nat.ltb_lt in Hshort. rewrite Hshort.
    reflexivity. }
  unfold Hook.setPath, Hook.on_walker. rewrite Hw, E.
  rewrite (set_walkingObject_same h w Hw). reflexivity.
Qed.

Lemma hook_announces_a_path_turned_down_witness :
  Hook.walkingObject following = Some strolling
  /\ too_short (Some [pt 1 2 3])
  /\ Hook.setPath coarse (Some [pt 1 2 3]) following
     = Some (following,
             [Hook.ConsoleWarn "Invalid path provided to walking object";
              Hook.StatusChange
                "Walking path set. Use controls to start animation."]).
Proof.
  assert (H1 : Hook.walkingObject following = Some strolling)
    by reflexivity.
  assert (H2 : too_short (Some [pt 1 2 3])) by (cbn; lia).
  split; [exact H1|]. split; [exact H2|].
  exact (hook_announces_a_path_turned_down coarse _ following strolling
           H1 H2).
Defined.

(** [startOrResumeWalking] leaves the refs, the walker among them, exactly
    as [startWalking] does, in every state: the walker's own
    [startWalking] already resumes when it is not at the start.  Only the
    messages can differ. *)
Theorem startOrResume_leaves_the_refs_of_start M h :
  option_map fst (Hook.startOrResumeWalking M h)
  = option_map fst (Hook.startWalking M h).
Proof.
  unfold Hook.startOrResumeWalking, Hook.startWalking, Hook.on_walker.
  destruct (Hook.walkingObject h) as [w|]; [|reflexivity].
  unfold isAtStart. rewrite bind_this. unfold ret.
  destruct ((currentPathIndex w =? 0)%nat && (progress w =? 0)) eqn:Estart.
  - destruct (startWalking M w) as [[] w2 out2|]; reflexivity.
  - rewrite startWalking_unfold. unfold resumeWalking. rewrite bind_this.
    destruct (List.length (path w) <? 2)%nat; [reflexivity|].
    rewrite Estart. reflexivity.
Qed.

(** *** The camera *)

(** After the hook's [stopWalking] a frame of the loop writes nothing to
    the camera or the controls, whatever they are; it still runs the
    walker's [update], which puts the figure in the idle pose. *)
Theorem camera_rests_after_stop M cos currentTime now sinks h w :
  Hook.walkingObject h = Some w ->
  exists h1 out1,
    Hook.stopWalking h = Some (h1, out1)
    /\ Hook.animate M cos currentTime now sinks h1
       = Some (Hook.set_walkingObject
                 (Some (set_bodyParts (idlePose M now)
                          (set_isWalking false w)))
                 (Hook.set_lastTime currentTime
                    (Hook.set_cameraFollowEnabled false h)),
               [], None).
Proof.
  intros Hw. do 2 eexists. split.
  - unfold Hook.stopWalking, Hook.on_walker. rewrite Hw. reflexivity.
  - unfold Hook.animate.
    cbn [Hook.walkingObject Hook.set_lastTime Hook.set_cameraFollowEnabled
         Hook.set_walkingObject Hook.lastTime].
    rewrite (update_at_rest M now _ (set_isWalking false w)) by reflexivity.
    cbn [Hook.cameraFollowEnabled Hook.set_walkingObject
         Hook.set_lastTime Hook.set_cameraFollowEnabled map].
    destruct h; reflexivity.
Qed.

Lemma camera_rests_after_stop_witness :
  Hook.walkingObject following = Some strolling
  /\ exists h1 out1,
       Hook.stopWalking following = Some (h1, out1)
       /\ Hook.animate coarse coarse_cos 1016 clock (Some a_camera) h1
          = Some (Hook.set_walkingObject
                    (Some (set_bodyParts (idlePose coarse clock)
                             (set_isWalking false strolling)))
                    (Hook.set_lastTime 1016
                       (Hook.set_cameraFollowEnabled false following)),
                  [], None).
Proof.
  assert (H1 : Hook.walkingObject following = Some strolling)
    by reflexivity.
  split; [exact H1|].
  exact (camera_rests_after_stop coarse coarse_cos 1016 clock
           (Some a_camera) following strolling H1).
Defined.

(** [lerpFactor] is 1 for a frame of an eighth of a second or more, and
    eight times the frame's length for a shorter one. *)
Lemma lerpFactor_long deltaTime :
  (1 <=? deltaTime * 8) = true -> Hook.lerpFactor deltaTime = 1.
Proof.
  intros H. unfold Hook.lerpFactor, Hook.Math_min.
  rewrite (leb_not_nan _ _ H). cbn [orb].
  change (is_nan 1) with false. cbv iota.
  rewrite (leb_not_ltb _ _ H).
  destruct (1 <? deltaTime * 8) eqn:E; [reflexivity|].
  assert (E1 : deltaTime * 8 = 1).
  { apply compare_one.
    revert H E. rewrite FloatAxioms.ltb_spec, FloatAxioms.leb_spec.
    unfold SFltb, SFleb.
    destruct (SFcompare (Prim2SF 1) (Prim2SF (deltaTime * 8)))
      as [[| |]|]; intros; try discriminate; reflexivity. }
  rewrite E1. reflexivity.
Qed.

Lemma lerpFactor_short deltaTime :
  (deltaTime * 8 <? 1) = true -> Hook.lerpFactor deltaTime = deltaTime * 8.
Proof.
  intros H. unfold Hook.lerpFactor, Hook.Math_min.
  rewrite (ltb_not_nan _ _ H), H. reflexivity.
Qed.

(** While the camera following is on, a frame of the loop runs the walker's
    [update] first and draws the camera to the figure as that [update]
    leaves it: the targets are kept in the refs, and the camera and the
    target of the controls move towards them by the fraction [lerpFactor],
    which is eight times the frame's length in seconds and 1 from an
    eighth of a second on.  The frame does not throw. *)
Theorem camera_follows_within_the_frame M cos currentTime now cp ct h w :
  Hook.walkingObject h = Some w ->
  Hook.cameraFollowEnabled h = true ->
  exists w' out,
    update M now (Hook.deltaTime currentTime h) w = Returned tt w' out
    /\ Hook.animate M cos currentTime now (Some (cp, ct)) h
       = Some (Hook.set_cameraTargets
                 (Hook.targetCameraPosition M cos (object w')
                    (Hook.cameraOffset h))
                 (Hook.targetLookAt (object w'))
                 (Hook.set_walkingObject (Some w')
                    (Hook.set_lastTime currentTime h)),
               map Hook.relay out,
               Some (Hook.lerp cp
                       (Hook.targetCameraPosition M cos (object w')
                          (Hook.cameraOffset h))
                       (Hook.lerpFactor (Hook.deltaTime currentTime h)),
                     Hook.lerp ct (Hook.targetLookAt (object w'))
                       (Hook.lerpFactor (Hook.deltaTime currentTime h))))
    /\ ((1 <=? Hook.deltaTime currentTime h * 8) = true
        -> Hook.lerpFactor (Hook.deltaTime currentTime h) = 1)
    /\ ((Hook.deltaTime currentTime h * 8 <? 1) = true
        -> Hook.lerpFactor (Hook.deltaTime currentTime h)
           = Hook.deltaTime currentTime h * 8).
Proof.
  intros Hw Hfollow.
  set (deltaTime := Hook.deltaTime currentTime h).
  destruct (update_frame M now deltaTime w) as (w' & out & E & _).
  exists w', out. split; [exact E|]. split.
  - unfold Hook.animate.
    cbn [Hook.walkingObject Hook.set_lastTime].
    rewrite Hw. fold deltaTime. rewrite E.
    cbn [Hook.cameraFollowEnabled Hook.set_walkingObject Hook.set_lastTime
         Hook.cameraOffset].
    rewrite Hfollow. reflexivity.
  - split; [apply lerpFactor_long|apply lerpFactor_short].
Qed.

Lemma camera_follows_within_the_frame_witness :
  Hook.walkingObject following = Some strolling
  /\ Hook.cameraFollowEnabled following = true
  /\ exists w' out,
       update coarse clock (Hook.deltaTime 1200 following)
         strolling
       = Returned tt w' out
       /\ Hook.animate coarse coarse_cos 1200 clock (Some a_camera)
            following
          = Some (Hook.set_cameraTargets
                    (Hook.targetCameraPosition coarse coarse_cos (object w')
                       (Hook.cameraOffset following))
                    (Hook.targetLookAt (object w'))
                    (Hook.set_walkingObject (Some w')
                       (Hook.set_lastTime 1200 following)),
                  map Hook.relay out,
                  Some (Hook.lerp (fst a_camera)
                          (Hook.targetCameraPosition coarse coarse_cos
                             (object w') (Hook.cameraOffset following))
                          (Hook.lerpFactor
                             (Hook.deltaTime 1200 following)),
                        Hook.lerp (snd a_camera)
                          (Hook.targetLookAt (object w'))
                          (Hook.lerpFactor
                             (Hook.deltaTime 1200 following))))
       /\ ((1 <=? Hook.deltaTime 1200 following * 8) = true
           -> Hook.lerpFactor (Hook.deltaTime 1200 following)
              = 1)
       /\ ((Hook.deltaTime 1200 following * 8 <? 1) = true
           -> Hook.lerpFactor (Hook.deltaTime 1200 following)
              = Hook.deltaTime 1200 following * 8).
Proof.
  assert (H1 : Hook.walkingObject following = Some strolling)
    by reflexivity.
  assert (H2 : Hook.cameraFollowEnabled following = true) by reflexivity.
  split; [exact H1|]. split; [exact H2|].
  exact (camera_follows_within_the_frame coarse coarse_cos 1200 clock
           (fst a_camera) (snd a_camera) following strolling H1 H2).
Defined.

(** Hiding the walker puts it at rest but, unlike [stopWalking], leaves
    the camera following as it was: when it was on, the next frame still
    draws the camera to the hidden figure. *)
Theorem camera_follows_a_hidden_walker M cos currentTime now cp ct h w :
  Hook.walkingObject h = Some w ->
  Hook.cameraFollowEnabled h = true ->
  exists h1 w1,
    Hook.hideWalker h = Some (h1, [Hook.StatusChange "Walker hidden."])
    /\ w1 = set_isWalking false (set_visible false w)
    /\ Hook.walkingObject h1 = Some w1
    /\ Hook.cameraFollowEnabled h1 = true
    /\ exists h2,
         Hook.animate M cos currentTime now (Some (cp, ct)) h1
         = Some (h2, [],
                 Some (Hook.lerp cp
                         (Hook.targetCameraPosition M cos (object w1)
                            (Hook.cameraOffset h))
                         (Hook.lerpFactor
                            (Hook.deltaTime currentTime h)),
                       Hook.lerp ct (Hook.targetLookAt (object w1))
                         (Hook.lerpFactor
                            (Hook.deltaTime currentTime h)))).
Proof.
  intros Hw Hfollow. do 2 eexists.
  split.
  { unfold Hook.hideWalker, Hook.on_walker. rewrite Hw. reflexivity. }
  split; [reflexivity|]. split; [reflexivity|]. split; [exact Hfollow|].
  unfold Hook.animate.
  cbn [Hook.walkingObject Hook.set_lastTime Hook.set_walkingObject
       Hook.lastTime].
  rewrite update_at_rest by reflexivity.
  cbn [Hook.cameraFollowEnabled Hook.set_walkingObject Hook.set_lastTime
       Hook.cameraOffset].
  rewrite Hfollow. eexists. reflexivity.
Qed.

Lemma camera_follows_a_hidden_walker_witness :
  Hook.walkingObject following = Some strolling
  /\ Hook.cameraFollowEnabled following = true
  /\ exists h1 w1,
       Hook.hideWalker following
       = Some (h1, [Hook.StatusChange "Walker hidden."])
       /\ w1 = set_isWalking false (set_visible false strolling)
       /\ Hook.walkingObject h1 = Some w1
       /\ Hook.cameraFollowEnabled h1 = true
       /\ exists h2,
            Hook.animate coarse coarse_cos 1016 clock (Some a_camera) h1
            = Some (h2, [],
                    Some (Hook.lerp (fst a_camera)
                            (Hook.targetCameraPosition coarse coarse_cos
                               (object w1) (Hook.cameraOffset following))
                            (Hook.lerpFactor
                               (Hook.deltaTime 1016 following)),
                          Hook.lerp (snd a_camera)
                            (Hook.targetLookAt (object w1))
                            (Hook.lerpFactor
                               (Hook.deltaTime 1016 following)))).
Proof.
  assert (H1 : Hook.walkingObject following = Some strolling)
    by reflexivity.
  assert (H2 : Hook.cameraFollowEnabled following = true) by reflexivity.
  split; [exact H1|]. split; [exact H2|].
  exact (camera_follows_a_hidden_walker coarse coarse_cos 1016 clock
           (fst a_camera) (snd a_camera) following strolling H1 H2).
Defined.

End HookFacts.

(* ================================================================== *)
(** ** The navigation panel and the keys *)

Module NavigationFacts.
Import JS Navigation NumberFacts.
Local Open Scope float_scope.

(** [calculateDistance] does not depend on the order of the two locations,
    rounding included, and is three.js's [distanceTo] of their
    coordinates, the length the walker gives a segment. *)
Theorem calculateDistance_symmetric loc1 loc2 :
  calculateDistance loc1 loc2 = calculateDistance loc2 loc1
  /\ calculateDistance loc1 loc2
     = THREE.distanceTo (coordinates loc1) (coordinates loc2).
Proof.
  split; [|reflexivity].
  unfold calculateDistance. cbv zeta.
  rewrite (square_of_difference (THREE.x (coordinates loc1))),
          (square_of_difference (THREE.y (coordinates loc1))),
          (square_of_difference (THREE.z (coordinates loc1))).
  reflexivity.
Qed.

(** The way back has the instructions of the way there with the same
    distances: swapping origin and destination changes the texts only. *)
Theorem way_back_has_the_same_distances markedLocations originId
  destinationId :
  map distance
    (generateNavigationInstructions markedLocations originId destinationId)
  = map distance
      (generateNavigationInstructions markedLocations destinationId
         originId)
  /\ map type
       (generateNavigationInstructions markedLocations originId
          destinationId)
     = map type
         (generateNavigationInstructions markedLocations destinationId
            originId).
Proof.
  unfold generateNavigationInstructions.
  destruct (find_location markedLocations originId) as [o|],
           (find_location markedLocations destinationId) as [d|];
    split; try reflexivity.
  cbn [map distance]. unfold calculateDistance. cbv zeta.
  rewrite (square_of_difference (THREE.x (coordinates o))),
          (square_of_difference (THREE.y (coordinates o))),
          (square_of_difference (THREE.z (coordinates o))).
  reflexivity.
Qed.

(** Swapping origin and destination keeps the start button as it was, on
    or off, and swapping twice gives the selection back. *)
Theorem swap_keeps_the_start_button s :
  canStartNavigation (handleSwapLocations s) = canStartNavigation s
  /\ handleSwapLocations (handleSwapLocations s) = s.
Proof.
  destruct s as [o d]. split; [|reflexivity].
  unfold canStartNavigation, handleSwapLocations. cbn [origin destination].
  rewrite (String.eqb_sym d o).
  destruct (String.eqb o ""), (String.eqb d ""), (String.eqb o d);
    reflexivity.
Qed.

End NavigationFacts.

Module KeysFacts.
Import Keys.

Lemma handle_paired e k : paired k -> paired (handle e k).
Proof.
  intros (H1 & H2 & H3 & H4).
  destruct e as [code|code]; cbn [handle];
    unfold handleKeyDown, handleKeyUp;
    destruct (String.eqb code "ArrowUp" || String.eqb code "KeyW");
    try (repeat split; cbn; auto; fail);
    destruct (String.eqb code "ArrowDown" || String.eqb code "KeyS");
    try (repeat split; cbn; auto; fail);
    destruct (String.eqb code "ArrowLeft" || String.eqb code "KeyA");
    try (repeat split; cbn; auto; fail);
    destruct (String.eqb code "ArrowRight" || String.eqb code "KeyD");
    repeat split; cbn; auto.
Qed.

(** Whatever keys go down and up, in whatever order, the two flags of a
    direction are equal: the arrow key and the letter key of a direction
    are one switch. *)
Theorem keys_stay_paired es : paired (handleAll es released).
Proof.
  unfold handleAll.
  assert (H : paired released) by (repeat split).
  revert H. generalize released.
  induction es as [|e es IH]; intros k H; [exact H|].
  cbn [fold_left]. apply IH, handle_paired, H.
Qed.

Lemma handle_concerned d e k :
  concerns d e = true -> moves d (handle e k) = is_down e.
Proof.
  unfold concerns. intros H. apply orb_true_iff in H.
  destruct d, e as [code|code]; cbn [codes fst snd code_of] in H;
    destruct H as [H|H]; apply String.eqb_eq in H; subst code;
    reflexivity.
Qed.

Lemma handle_unconcerned d e k :
  concerns d e = false -> moves d (handle e k) = moves d k.
Proof.
  unfold concerns. intros H. apply orb_false_iff in H. destruct H as [H1 H2].
  destruct d, e as [code|code]; cbn [codes fst snd code_of] in H1, H2;
    cbn [handle]; unfold handleKeyDown, handleKeyUp;
    rewrite ?H1, ?H2; cbn [orb];
    repeat match goal with
           | |- context [String.eqb code ?c] =>
               destruct (String.eqb code c)
           end; reflexivity.
Qed.

Lemma handleAll_unconcerned d es :
  forallb (fun e => negb (concerns d e)) es = true ->
  forall k, moves d (handleAll es k) = moves d k.
Proof.
  unfold handleAll.
  induction es as [|e es IH]; intros H k; [reflexivity|].
  cbn in H. apply andb_true_iff in H. destruct H as [He H].
  apply negb_true_iff in He.
  cbn [fold_left]. rewrite (IH H). apply handle_unconcerned, He.
Qed.

(** Whether the camera moves in a direction is decided by the last event
    of either key of that direction, whichever key it is: it moves after a
    key-down and stands after a key-up, whatever was pressed before and
    whatever the other keys did since.  So releasing one of the two keys
    stops the motion while the other is still held. *)
Theorem last_event_of_a_direction_decides d es1 e es2 k :
  concerns d e = true ->
  forallb (fun e' => negb (concerns d e')) es2 = true ->
  moves d (handleAll (es1 ++ e :: es2) k) = is_down e.
Proof.
  intros He Hes2. unfold handleAll. rewrite fold_left_app.
  cbn [fold_left].
  change (moves d (handleAll es2 (handle e (handleAll es1 k))) = is_down e).
  rewrite (handleAll_unconcerned d es2 Hes2).
  apply handle_concerned, He.
Qed.

Lemma last_event_of_a_direction_decides_witness :
  concerns Forward (KeyUp "KeyW") = true
  /\ forallb (fun e' => negb (concerns Forward e'))
       [KeyDown "KeyA"; KeyUp "Space"] = true
  /\ moves Forward
       (handleAll
          ([KeyDown "KeyW"; KeyDown "ArrowUp"]
           ++ KeyUp "KeyW" :: [KeyDown "KeyA"; KeyUp "Space"])
          released)
     = is_down (KeyUp "KeyW").
Proof.
  assert (H1 : concerns Forward (KeyUp "KeyW") = true) by reflexivity.
  assert (H2 : forallb (fun e' => negb (concerns Forward e'))
                 [KeyDown "KeyA"; KeyUp "Space"] = true) by reflexivity.
  split; [exact H1|]. split; [exact H2|].
  exact (last_event_of_a_direction_decides Forward
           [KeyDown "KeyW"; KeyDown "ArrowUp"] (KeyUp "KeyW")
           [KeyDown "KeyA"; KeyUp "Space"] released H1 H2).
Defined.

End KeysFacts.

(* ================================================================== *)
(** ** The rows of the hierarchy panel *)

Module HierarchyFacts.
Import Hierarchy.

Lemma Object3D_induction (P : Object3D -> Prop) :
  (forall u n t v cs, Forall P cs -> P (mkObject3D u n t v cs)) ->
  forall o, P o.
Proof.
  intros H. fix IH 1. intros [u n t v cs]. apply H.
  induction cs as [|c cs IHcs]; constructor; [apply IH|exact IHcs].
Qed.

Lemma traverseObject_unfold o depth parentId :
  traverseObject o depth parentId
  = item_of o depth parentId
    :: flat_map (fun child => traverseObject child (S depth) (Some (uuid o)))
         (children o).
Proof.
  destruct o as [u n t v cs]. reflexivity.
Qed.

Lemma objects_unfold o :
  objects o = o :: flat_map objects (children o).
Proof.
  destruct o as [u n t v cs]. reflexivity.
Qed.

Lemma count_unfold o :
  count o = S (list_sum (map count (children o))).
Proof.
  destruct o as [u n t v cs]. cbn [count children].
  f_equal. induction cs as [|c cs IH]; [reflexivity|].
  cbn [map list_sum]. rewrite IH. reflexivity.
Qed.

Lemma traverseObject_objects o :
  forall depth parentId,
    map object (traverseObject o depth parentId) = objects o.
Proof.
  induction o as [u n t v cs IH] using Object3D_induction.
  intros depth parentId.
  rewrite traverseObject_unfold, objects_unfold.
  cbn [map item_of object children uuid]. f_equal.
  induction IH as [|c cs Hc _ IHcs]; [reflexivity|].
  cbn [flat_map]. rewrite map_app, Hc, IHcs. reflexivity.
Qed.

Lemma objects_count o : List.length (objects o) = count o.
Proof.
  induction o as [u n t v cs IH] using Object3D_induction.
  rewrite objects_unfold, count_unfold. cbn [List.length children].
  f_equal.
  induction IH as [|c cs Hc _ IHcs]; [reflexivity|].
  cbn [flat_map map list_sum]. rewrite length_app, Hc, IHcs. reflexivity.
Qed.

(** The panel has one row for every object of the model, the model itself
    included, each object before its children and the children in their
    order; so it has as many rows as the model has objects.  Without a
    model it has none. *)
Theorem buildHierarchy_lists_every_object model :
  map object (buildHierarchy (Some model)) = objects model
  /\ List.length (buildHierarchy (Some model)) = count model
  /\ buildHierarchy None = [].
Proof.
  cbn [buildHierarchy]. split; [apply traverseObject_objects|].
  split; [|reflexivity].
  rewrite <- objects_count, <- (traverseObject_objects model 0 None).
  symmetry. apply length_map.
Qed.

Lemma nth_error_flat_map {A B} (f : A -> list B) l :
  forall i b,
    nth_error (flat_map f l) i = Some b ->
    exists pre a post k,
      l = pre ++ a :: post
      /\ i = (List.length (flat_map f pre) + k)%nat
      /\ nth_error (f a) k = Some b.
Proof.
  induction l as [|a l IH]; intros i b H.
  - destruct i; discriminate H.
  - cbn [flat_map] in H.
    destruct (Nat.lt_ge_cases i (List.length (f a))) as [Hlt|Hge].
    + rewrite nth_error_app1 in H by exact Hlt.
      exists [], a, l, i. repeat split. exact H.
    + rewrite nth_error_app2 in H by exact Hge.
      destruct (IH _ _ H) as (pre & a' & post & k & El & Ei & Hk).
      exists (a :: pre), a', post, k. split; [rewrite El; reflexivity|].
      split; [|exact Hk].
      cbn [flat_map]. rewrite length_app. lia.
Qed.

Lemma nth_error_flat_map_at {A B} (f : A -> list B) pre a post k :
  (k < List.length (f a))%nat ->
  nth_error (flat_map f (pre ++ a :: post))
    (List.length (flat_map f pre) + k)
  = nth_error (f a) k.
Proof.
  intros Hk. rewrite flat_map_app. cbn [flat_map].
  rewrite nth_error_app2 by lia.
  replace (List.length (flat_map f pre) + k - List.length (flat_map f pre))%nat
    with k by lia.
  apply nth_error_app1. exact Hk.
Qed.

(** The row [i + 1] of [traverseObject] has its parent's row before it. *)
Lemma traverseObject_parents o :
  forall d p i it,
    nth_error (traverseObject o d p) (S i) = Some it ->
    exists j parent,
      (j <= i)%nat
      /\ nth_error (traverseObject o d p) j = Some parent
      /\ parentId it = Some (item_id parent)
      /\ depth it = S (depth parent)
      /\ In (object it) (children (object parent)).
Proof.
  induction o as [u n t v cs IH] using Object3D_induction.
  intros d p i it H.
  rewrite traverseObject_unfold in *. cbn [nth_error] in H.
  cbn [children uuid] in *.
  destruct (nth_error_flat_map _ _ _ _ H)
    as (pre & c & post & k & Ecs & Ei & Hk).
  assert (Hc : In c cs) by (rewrite Ecs; apply in_elt).
  destruct k as [|k].
  - exists 0%nat, (item_of (mkObject3D u n t v cs) d p).
    split; [lia|]. split; [reflexivity|].
    rewrite traverseObject_unfold in Hk. cbn [nth_error] in Hk.
    injection Hk as <-. cbn. repeat split. exact Hc.
  - rewrite Forall_forall in IH.
    destruct (IH c Hc (S d) (Some u) k it Hk)
      as (j & parent & Hj & Hparent & Hid & Hdepth & Hin).
    exists (S (List.length
                 (flat_map
                    (fun child => traverseObject child (S d) (Some u))
                    pre) + j)), parent.
    split; [lia|]. split; [|auto].
    cbn [nth_error]. rewrite Ecs.
    rewrite nth_error_flat_map_at; [exact Hparent|].
    apply nth_error_Some. rewrite Hparent. discriminate.
Qed.

(** The first row is the model's, at depth 0 and without a parent.  Every
    other row has the row of its parent somewhere before it: its
    [parentId] is that row's id, its depth is one more, and its object is
    one of the children of that row's object. *)
Theorem rows_follow_their_parents model :
  nth_error (buildHierarchy (Some model)) 0 = Some (item_of model 0 None)
  /\ forall i it,
       nth_error (buildHierarchy (Some model)) (S i) = Some it ->
       exists j parent,
         (j <= i)%nat
         /\ nth_error (buildHierarchy (Some model)) j = Some parent
         /\ parentId it = Some (item_id parent)
         /\ depth it = S (depth parent)
         /\ In (object it) (children (object parent)).
Proof.
  cbn [buildHierarchy]. split.
  - rewrite traverseObject_unfold. reflexivity.
  - apply traverseObject_parents.
Qed.

(** Each row shows its object: the id is the object's uuid, the name is the
    object's, or its type in brackets when it has no name, and the flags
    tell whether it is visible, whether it is a mesh and whether it has
    children. *)
Theorem rows_show_their_objects model it :
  In it (buildHierarchy (Some model)) ->
  it = item_of (object it) (depth it) (parentId it)
  /\ In (object it) (objects model).
Proof.
  cbn [buildHierarchy]. intros H. split.
  - revert H. generalize 0%nat, (@None string).
    induction model as [u n t v cs IH] using Object3D_induction.
    intros depth parentId H. rewrite traverseObject_unfold in H.
    destruct H as [H|H]; [subst it; reflexivity|].
    apply in_flat_map in H. destruct H as (c & Hc & H).
    rewrite Forall_forall in IH. exact (IH c Hc _ _ H).
  - rewrite <- (traverseObject_objects model 0 None).
    apply in_map, H.
Qed.

Lemma rows_show_their_objects_witness :
  In (item_of (mkObject3D "u2" "" "Mesh" false []) 2 (Some "u1"%string))
    (buildHierarchy (Some tower))
  /\ item_of (mkObject3D "u2" "" "Mesh" false []) 2 (Some "u1"%string)
     = item_of
         (object
            (item_of (mkObject3D "u2" "" "Mesh" false []) 2
               (Some "u1"%string)))
         (depth
            (item_of (mkObject3D "u2" "" "Mesh" false []) 2
               (Some "u1"%string)))
         (parentId
            (item_of (mkObject3D "u2" "" "Mesh" false []) 2
               (Some "u1"%string)))
  /\ In (object
           (item_of (mkObject3D "u2" "" "Mesh" false []) 2
              (Some "u1"%string)))
       (objects tower).
Proof.
  assert (H : In (item_of (mkObject3D "u2" "" "Mesh" false []) 2
                    (Some "u1"%string))
                (buildHierarchy (Some tower))).
  { right. right. left. reflexivity. }
  split; [exact H|].
  exact (rows_show_their_objects tower _ H).
Defined.

End HierarchyFacts.

(* ================================================================== *)
(** ** The levels of [detectFloorLevels] *)

Module FloorFacts.
Import JS FloorLevels Runs Driver.
Local Open Scope float_scope.

Lemma Set_add_length s v :
  (List.length s <= List.length (Set_add s v) <= S (List.length s))%nat.
Proof.
  unfold Set_add. destruct (existsb (sameValueZero v) s); [lia|].
  rewrite length_app. cbn. lia.
Qed.

Lemma Set_add_not_empty s v : Set_add s v <> [].
Proof.
  unfold Set_add. destruct (existsb (sameValueZero v) s) eqn:E.
  - destruct s; [discriminate E|discriminate].
  - destruct s; discriminate.
Qed.

Lemma addHeights_length heights box :
  (List.length heights <= List.length (addHeights heights box)
   <= 2 + List.length heights)%nat.
Proof.
  unfold addHeights. cbv zeta.
  pose proof (Set_add_length heights
                (Math_round (THREE.y (THREE.min box) * 10) / 10)) as H1.
  pose proof (Set_add_length
                (Set_add heights
                   (Math_round (THREE.y (THREE.min box) * 10) / 10))
                (Math_round (THREE.y (THREE.max box) * 10) / 10)) as H2.
  lia.
Qed.

Lemma heights_length selectedObjects :
  forall heights,
    (List.length heights
     <= List.length (fold_left addHeights selectedObjects heights)
     <= 2 * List.length selectedObjects + List.length heights)%nat.
Proof.
  induction selectedObjects as [|box rest IH]; intros heights.
  - cbn. lia.
  - cbn [fold_left List.length].
    pose proof (IH (addHeights heights box)) as H.
    pose proof (addHeights_length heights box) as H'. lia.
Qed.

Lemma heights_not_empty box rest :
  fold_left addHeights (box :: rest) [] <> [].
Proof.
  cbn [fold_left].
  pose proof (heights_length rest (addHeights [] box)) as H.
  assert (H' : addHeights [] box <> []) by apply Set_add_not_empty.
  destruct (addHeights [] box); [congruence|].
  destruct (fold_left addHeights rest (n :: l)); [cbn in H; lia|discriminate].
Qed.

Lemma sort_insert_permutation v sorted :
  Permutation (sort_insert v sorted) (v :: sorted).
Proof.
  induction sorted as [|h rest IH]; [reflexivity|].
  cbn [sort_insert]. destruct (v - h <? 0); [reflexivity|].
  rewrite IH. apply perm_swap.
Qed.

Lemma sort_ascending_permutation a : Permutation (sort_ascending a) a.
Proof.
  unfold sort_ascending.
  assert (H : forall sorted,
             Permutation
               (fold_left (fun sorted v => sort_insert v sorted) a sorted)
               (sorted ++ a)).
  { induction a as [|v a IH]; intros sorted.
    - rewrite app_nil_r. reflexivity.
    - cbn [fold_left]. rewrite IH, sort_insert_permutation.
      apply Permutation_middle. }
  exact (H []).
Qed.

Lemma runs_not_empty rest : forall c, runs c rest <> [].
Proof.
  induction rest as [|h rest IH]; intros c; cbn; [discriminate|].
  destruct (_ <? _); [apply IH|discriminate].
Qed.

(** What the loop leaves is what [runs] cuts. *)
Lemma groupLoop_runs rest :
  forall currentGroup groupedFloors,
    groupLoop rest currentGroup groupedFloors
    = (last (runs currentGroup rest) [],
       groupedFloors
       ++ map groupMean (removelast (runs currentGroup rest))).
Proof.
  induction rest as [|h rest IH]; intros currentGroup groupedFloors.
  - cbn. rewrite app_nil_r. reflexivity.
  - cbn [groupLoop runs].
    destruct (h - last currentGroup nan <? 0.5); [apply IH|].
    rewrite IH.
    pose proof (runs_not_empty rest [h]) as Hne.
    destruct (runs [h] rest) as [|g gs] eqn:E; [congruence|].
    cbn [removelast last map]. rewrite <- app_assoc. reflexivity.
Qed.

Lemma runs_concat rest : forall c, List.concat (runs c rest) = c ++ rest.
Proof.
  induction rest as [|h rest IH]; intros c; cbn [runs].
  - cbn. reflexivity.
  - destruct (_ <? _).
    + rewrite IH, <- app_assoc. reflexivity.
    + cbn [List.concat]. rewrite IH. reflexivity.
Qed.

Lemma runs_groups_not_empty rest :
  forall c, c <> [] -> Forall (fun g => g <> []) (runs c rest).
Proof.
  induction rest as [|h rest IH]; intros c Hc; cbn [runs].
  - constructor; [exact Hc|constructor].
  - destruct (_ <? _).
    + apply IH. destruct c; discriminate.
    + constructor; [exact Hc|]. apply IH. discriminate.
Qed.





Lemma detectFloorLevels_runs box others :
  exists first rest,
    sort_ascending (fold_left addHeights (box :: others) [])
    = first :: rest
    /\ detectFloorLevels (box :: others)
       = map groupMean (runs [first] rest).
Proof.
  pose proof (heights_not_empty box others) as Hne.
  pose proof (sort_ascending_permutation
                (fold_left addHeights (box :: others) [])) as Hp.
  unfold detectFloorLevels. cbv zeta.
  destruct (sort_ascending (fold_left addHeights (box :: others) []))
    as [|first rest] eqn:Es.
  { apply Permutation_nil in Hp. congruence. }
  exists first, rest. split; [reflexivity|].
  rewrite groupLoop_runs. cbn [app].
  pose proof (runs_groups_not_empty rest [first] ltac:(discriminate)) as Hg.
  pose proof (runs_not_empty rest [first]) as Hr.
  rewrite (app_removelast_last [] Hr) in Hg.
  apply Forall_app in Hg. destruct Hg as [_ Hg]. apply Forall_inv in Hg.
  transitivity
    (map groupMean
       (removelast (runs [first] rest) ++ [last (runs [first] rest) []])).
  2:{ rewrite <- app_removelast_last by exact Hr. reflexivity. }
  rewrite map_app. cbn [map].
  destruct (last (runs [first] rest) []); [congruence|reflexivity].
Qed.



Lemma concat_length_groups (groups : list (list number)) :
  Forall (fun g => g <> []) groups ->
  (List.length groups <= List.length (List.concat groups))%nat.
Proof.
  induction 1 as [|g gs Hg _ IH]; [reflexivity|].
  cbn [List.concat List.length]. rewrite length_app.
  destruct g; [congruence|]. cbn [List.length]. lia.
Qed.

(** A selection of [n] objects, [n] not 0, gives at least one level and at
    most [2 * n]: each object brings at most two heights.  The empty
    selection gives none. *)
Theorem levels_are_counted selectedObjects :
  selectedObjects <> [] ->
  (1 <= List.length (detectFloorLevels selectedObjects)
   <= 2 * List.length selectedObjects)%nat.
Proof.
  destruct selectedObjects as [|box others]; [congruence|]. intros _.
  destruct (detectFloorLevels_runs box others)
    as (first & rest & Es & El).
  rewrite El, length_map.
  pose proof (runs_not_empty rest [first]) as Hne.
  pose proof (concat_length_groups (runs [first] rest)
                (runs_groups_not_empty rest [first] ltac:(discriminate)))
    as Hle.
  rewrite runs_concat in Hle. cbn [app] in Hle. rewrite <- Es in Hle.
  rewrite (Permutation_length
             (sort_ascending_permutation
                (fold_left addHeights (box :: others) []))) in Hle.
  pose proof (heights_length (box :: others) []) as Hh.
  cbn [List.length] in Hh |- *.
  destruct (runs [first] rest); [congruence|]. cbn [List.length] in *.
  lia.
Qed.

Lemma levels_are_counted_witness :
  two_slabs <> []
  /\ (1 <= List.length (detectFloorLevels two_slabs)
      <= 2 * List.length two_slabs)%nat.
Proof.
  assert (H : two_slabs <> []) by discriminate.
  split; [exact H|].
  exact (levels_are_counted two_slabs H).
Defined.

End FloorFacts.
